(** * bench.cpp: robust statistics and the adaptive benchmark loop

    A shallow embedding of [bench.cpp].

    The statistics helpers are templates over a numeric type [T]; the
    program instantiates them at [double].  Here [T] is the field of
    rationals [Q]: every finite sample is a rational, the arithmetic is
    exact (rounding of the operations on [double] is not modelled), and
    equality of values is [Qeq].  The conversion of an integer count to
    [double] does round, see [double_of_i64].  The one division whose
    divisor can be zero, the ratio
    [100 * median_abs_dev / median] of [Summary], keeps the outcomes that
    IEEE arithmetic gives it (an infinity or a NaN) in the type [ratio].

    [assert] failures and out-of-bounds reads are [None].

    Integers of the program are [Z] with the wrap-around of their width
    written out ([uint64_t]); signed nanosecond counts are [Z]. *)

From Stdlib Require Import ZArith QArith Qround Qabs List Sorted Permutation.
From Stdlib Require Import Lia Lqa Bool.
Import ListNotations.

Open Scope Q_scope.

(** ** RobustStatistics *)

Module Stats.

(** [a < b] on [T], as a boolean. *)
Definition Qlt_bool (a b : Q) : bool := negb (Qle_bool b a).

(** [std::sort(v.begin(), v.end())]: the ascending rearrangement of the
    vector, here by insertion. *)
Fixpoint insert (x : Q) (l : list Q) : list Q :=
  match l with
  | [] => [x]
  | y :: l' => if Qle_bool x y then x :: l else y :: insert x l'
  end.

Fixpoint sort (l : list Q) : list Q :=
  match l with
  | [] => []
  | x :: l' => insert x (sort l')
  end.

Definition hundred : Q := 100.

(** [percentile_of_sorted(sorted_samples, pct)]. *)
Definition percentile_of_sorted (sorted_samples : list Q) (pct : Q) : option Q :=
  match sorted_samples with
  | [] => None
  | [x] => Some x
  | _ =>
      if negb (Qle_bool 0 pct) then None
      else if negb (Qle_bool pct hundred) then None
      else if Qeq_bool pct hundred
      then nth_error sorted_samples (List.length sorted_samples - 1)
      else
        let length := inject_Z (Z.of_nat (List.length sorted_samples - 1)) in
        let rank := (pct / hundred) * length in
        let lrank := Qfloor rank in
        let d := rank - inject_Z lrank in
        let n := Z.to_nat lrank in
        match nth_error sorted_samples n, nth_error sorted_samples (n + 1) with
        | Some lo, Some hi => Some (lo + (hi - lo) * d)
        | _, _ => None
        end
  end.

(** The body of the loop of [winsorize], for one sample. *)
Definition clamp (lo hi samp : Q) : Q :=
  if Qlt_bool hi samp then hi
  else if Qlt_bool samp lo then lo
  else samp.

(** [winsorize(samples, pct)]; the vector is updated in place, the result
    is its new contents. *)
Definition winsorize (samples : list Q) (pct : Q) : option (list Q) :=
  let samples := sort samples in
  match percentile_of_sorted samples pct with
  | None => None
  | Some lo =>
      match percentile_of_sorted samples (100 - pct) with
      | None => None
      | Some hi => Some (map (clamp lo hi) samples)
      end
  end.

(** The value of [T(100) * median_abs_dev / median] in [double]: a finite
    quotient when the divisor is not zero, otherwise an infinity with the
    sign of the dividend, or NaN for [0 / 0]. *)
Inductive ratio : Type :=
  | Finite (q : Q)
  | PosInf
  | NegInf
  | NaN.

Definition divide (a b : Q) : ratio :=
  if Qeq_bool b 0 then
    if Qlt_bool 0 a then PosInf
    else if Qlt_bool a 0 then NegInf
    else NaN
  else Finite (a / b).

(** [r < q] for a finite [q]; every comparison with NaN is false. *)
Definition ratio_lt (r : ratio) (q : Q) : bool :=
  match r with
  | Finite x => Qlt_bool x q
  | NegInf => true
  | PosInf | NaN => false
  end.

(** [r == q] for a finite [q]. *)
Definition ratio_eq (r : ratio) (q : Q) : bool :=
  match r with
  | Finite x => Qeq_bool x q
  | _ => false
  end.

Record Summary : Type := mkSummary {
  max : Q;
  min : Q;
  median : Q;
  median_abs_dev : Q;
  median_abs_dev_pct : ratio
}.

(** [Summary()]. *)
Definition Summary_default : Summary := mkSummary 0 0 0 0 (Finite 0).

(** [*std::max_element(first, last)] and [*std::min_element(first, last)];
    dereferencing [end()] of an empty vector is [None]. *)
Definition calc_max (samples : list Q) : option Q :=
  match samples with
  | [] => None
  | x :: l => Some (fold_left (fun largest v => if Qlt_bool largest v then v else largest) l x)
  end.

Definition calc_min (samples : list Q) : option Q :=
  match samples with
  | [] => None
  | x :: l => Some (fold_left (fun smallest v => if Qlt_bool v smallest then v else smallest) l x)
  end.

Definition calc_percentile (samples : list Q) (pct : Q) : option Q :=
  let tmp := sort samples in
  percentile_of_sorted tmp pct.

Definition calc_median (samples : list Q) : option Q :=
  calc_percentile samples 50.

Definition scale : Q := 14826 # 10000.

Definition calc_median_abs_dev (samples : list Q) : option Q :=
  match calc_median samples with
  | None => None
  | Some med =>
      let abs_devs := map (fun v => med - v) samples in
      match calc_median abs_devs with
      | None => None
      | Some m => Some (m * scale)
      end
  end.

(** [Summary(samples)]: the members are initialised in declaration order. *)
Definition Summary_of (samples : list Q) : option Summary :=
  match calc_max samples with
  | None => None
  | Some max =>
  match calc_min samples with
  | None => None
  | Some min =>
  match calc_median samples with
  | None => None
  | Some median =>
  match calc_median_abs_dev samples with
  | None => None
  | Some median_abs_dev =>
      Some (mkSummary max min median median_abs_dev
              (divide (100 * median_abs_dev) median))
  end end end end.

End Stats.

(** ** TimedInvoker, AdaptiveSampler and Orchestrator *)

Module Bench.
Import Stats.

Open Scope Z_scope.

(** Conversions to [uint64_t] and to [int64_t] (the representation of
    [std::chrono::nanoseconds]). *)
Definition u64 (z : Z) : Z := z mod 2 ^ 64.
Definition i64 (z : Z) : Z := (z + 2 ^ 63) mod 2 ^ 64 - 2 ^ 63.

(** The data members of [class Bencher]. *)
Record Bencher : Type := mkBencher {
  iterations_ : Z;   (* uint64_t *)
  duration_ : Z;     (* nanoseconds *)
  bytes_ : Z         (* uint64_t *)
}.

Definition Bencher_new : Bencher := mkBencher 0 0 0.

Definition bytes (b : Bencher) : Z := bytes_ b.

(** [duration_ / iterations_] divides in the common type of [int64_t] and
    [uint64_t], which is [uint64_t]; the quotient is returned as
    nanoseconds. *)
Definition ns_per_iter (b : Bencher) : Z :=
  if negb (iterations_ b =? 0)
  then i64 (u64 (duration_ b) / iterations_ b)
  else 0.

(** The clock: the time of the last reading, and how much later each of
    the coming readings is taken. *)
Record World : Type := mkWorld {
  time : Z;
  drift : list Z
}.

(** [std::chrono::high_resolution_clock::now()], in nanoseconds. *)
Definition now (w : World) : Z * World :=
  match drift w with
  | [] => (time w, w)
  | d :: ds => (time w + d, mkWorld (time w + d) ds)
  end.

(** What a call [func( *this )] can observe and change: the bencher it is
    handed by reference, and the time it takes. *)
Record Machine : Type := mkMachine {
  self : Bencher;
  world : World
}.

Definition Callable : Type := Machine -> Machine.

(** The [for] loop of [bench_n]; [seen] collects the state at every call
    of [func], in order. *)
Fixpoint call_loop (k : nat) (func : Callable) (m : Machine)
    (seen : list Machine) : Machine * list Machine :=
  match k with
  | O => (m, seen)
  | S k' => call_loop k' func (func m) (seen ++ [m])
  end.

(** [bench_n(iterations, func)], with the list of the states in which
    [func] was called. *)
Definition bench_n_trace (iterations : Z) (func : Callable) (m : Machine)
    : Machine * list Machine :=
  let b := mkBencher iterations 0 (bytes_ (self m)) in
  let (loop_start, w) := now (world m) in
  let (m1, seen) := call_loop (Z.to_nat iterations) func (mkMachine b w) [] in
  let (finish, w1) := now (world m1) in
  let b1 := self m1 in
  (mkMachine (mkBencher (iterations_ b1) (finish - loop_start) (bytes_ b1)) w1,
   seen).

Definition bench_n (iterations : Z) (func : Callable) (m : Machine) : Machine :=
  fst (bench_n_trace iterations func m).

(** The conversion of an [int64_t] count to [double]: exact up to 53 bits,
    and beyond that rounded to the nearest multiple of the last bit kept,
    ties to the even one. *)
Definition double_of_i64 (z : Z) : Q :=
  if Z.abs z <? 2 ^ 53 then inject_Z z
  else
    let e := Z.log2 (Z.abs z) - 52 in
    let q := z / 2 ^ e in
    let r := z mod 2 ^ e in
    let half := 2 ^ (e - 1) in
    let q' :=
      if r <? half then q
      else if half <? r then q + 1
      else if Z.even q then q else q + 1 in
    inject_Z (q' * 2 ^ e).

(** [for (auto & p : samples) { bench_n(n, func); p = ns_per_iter().count(); }]
    over a vector of [k] elements. *)
Fixpoint collect (k : nat) (n : Z) (func : Callable) (m : Machine)
    : list Q * Machine :=
  match k with
  | O => ([], m)
  | S k' =>
      let m1 := bench_n n func m in
      let p := double_of_i64 (ns_per_iter (self m1)) in
      let (ps, m2) := collect k' n func m1 in
      (p :: ps, m2)
  end.

(** The test of lines 201-203. *)
Definition converged (loop_run : Z) (summ summ5 : Summary) : bool :=
  (100000000 <? loop_run)
  && ratio_lt (median_abs_dev_pct summ) 1
  && Qlt_bool (median summ - median summ5)%Q (median_abs_dev summ5).

Inductive outcome : Type :=
  | Return (summ5 : Summary)
  | Continue (total_run : Z).

(** The end of the loop body, lines 200-212. *)
Definition loop_exit (total_run loop_run : Z) (summ summ5 : Summary) : outcome :=
  if converged loop_run summ summ5 then Return summ5
  else
    let total_run := total_run + loop_run in
    if 3000000000 <? total_run then Return summ5
    else Continue total_run.

(** A run either finishes, aborts on an assertion, or is still going when
    the fuel is used up. *)
Inductive run (A : Type) : Type :=
  | Finished (a : A)
  | Aborted
  | Running.
Arguments Finished {A} a.
Arguments Aborted {A}.
Arguments Running {A}.

Definition round (n : Z) (func : Callable) (m : Machine)
    : option Summary * Machine :=
  let (samples, m1) := collect 50 n func m in
  match winsorize samples 5 with
  | None => (None, m1)
  | Some samples => (Summary_of samples, m1)
  end.

(** The [for (;;)] loop of [auto_bench]. *)
Fixpoint auto_bench_loop (fuel : nat) (n total_run : Z) (func : Callable)
    (m : Machine) : run (Summary * Machine) :=
  match fuel with
  | O => Running
  | S fuel' =>
      let (loop_start, w) := now (world m) in
      match round n func (mkMachine (self m) w) with
      | (None, _) => Aborted
      | (Some summ, m1) =>
          match round (u64 (n * 5)) func m1 with
          | (None, _) => Aborted
          | (Some summ5, m2) =>
              let (finish, w2) := now (world m2) in
              let m3 := mkMachine (self m2) w2 in
              match loop_exit total_run (finish - loop_start) summ summ5 with
              | Return s => Finished (s, m3)
              | Continue total_run' =>
                  auto_bench_loop fuel' (u64 (n * 2)) total_run' func m3
              end
          end
      end
  end.

(** The batch size chosen from the first run, lines 156-170. *)
Definition estimate (b : Bencher) : Z :=
  let n :=
    if ns_per_iter b =? 0 then 1000000
    else 1000000 / Z.max (u64 (ns_per_iter b)) 1 in
  if n =? 0 then 1 else n.

(** [auto_bench(func)].  [total_run] is declared without an initialiser:
    the value it starts from is whatever the stack holds, here
    [garbage]. *)
Definition auto_bench (fuel : nat) (garbage : Z) (func : Callable)
    (m : Machine) : run (Summary * Machine) :=
  let m1 := bench_n 1 func m in
  let n := estimate (self m1) in
  auto_bench_loop fuel n garbage func m1.

Record BenchSamples : Type := mkBenchSamples {
  ns_iter_summ : Summary;
  mb_s : Z
}.

(** Conversion of a [double] to [uint64_t]: truncation toward zero, defined
    when the truncated value fits. *)
Definition double_to_u64 (x : Q) : option Z :=
  let t := Z.quot (Qnum x) (Z.pos (Qden x)) in
  if (0 <=? t) && (t <? 2 ^ 64) then Some t else None.

(** Lines 254-256 of [benchmark]. *)
Definition throughput (summ : Summary) (bytes : Z) : option Z :=
  match double_to_u64 (median summ) with
  | None => None
  | Some med =>
      let ns_iter := Z.max med 1 in
      let iter_s := 1000000000 / ns_iter in
      Some (u64 (bytes * iter_s) / 1000000)
  end.

(** [benchmark(f)]. *)
Definition benchmark (fuel : nat) (garbage : Z) (f : Callable) (w : World)
    : run BenchSamples :=
  let b := mkMachine Bencher_new w in
  match auto_bench fuel garbage f b with
  | Finished (summ, b1) =>
      match throughput summ (bytes (self b1)) with
      | None => Aborted
      | Some mb => Finished (mkBenchSamples summ mb)
      end
  | Aborted => Aborted
  | Running => Running
  end.

(** [factorial(n)]: the recursion descends from [n] to 0, and every product
    wraps in [uint64_t]; [factorial_from k] is the call at [n = k]. *)
Fixpoint factorial_from (k : nat) : Z :=
  match k with
  | O => 1
  | S k' => u64 (factorial_from k' * Z.of_nat (S k'))
  end.

Definition factorial (n : Z) : Z := factorial_from (Z.to_nat n).

End Bench.

(** * Vocabulary of the statements *)

Module Spec.
Import Stats Bench.

Open Scope Q_scope.

(** The rank [(pct / 100) * (len - 1)] in a vector of [len] samples. *)
Definition rank (len : nat) (pct : Q) : Q :=
  (pct / hundred) * inject_Z (Z.of_nat (len - 1)).

(** The index below the rank. *)
Definition below (len : nat) (pct : Q) : nat :=
  Z.to_nat (Qfloor (rank len pct)).

(** The index above the rank. *)
Definition above (len : nat) (pct : Q) : nat :=
  Z.to_nat (Qceiling (rank len pct)).

(** The call returns, and its value is [q]. *)
Definition returns (o : option Q) (q : Q) : Prop :=
  match o with
  | Some v => v == q
  | None => False
  end.

(** The vector is ascending, decided. *)
Fixpoint is_sorted (l : list Q) : bool :=
  match l with
  | [] => true
  | x :: l' => forallb (Qle_bool x) l' && is_sorted l'
  end.

(** The vector [from, from + 1, ...] of [count] samples. *)
Definition range (from : nat) (count : nat) : list Q :=
  map (fun k => inject_Z (Z.of_nat k)) (seq from count).

(** What [winsorize] with bounds [lo] and [hi] makes of a sample [x]. *)
Definition clamped (lo hi x y : Q) : Prop :=
  (hi < x -> y = hi) /\ (x < lo -> y = lo) /\ (lo <= x -> x <= hi -> y = x).

(** Two vectors hold the same values. *)
Definition same_values (u v : list Q) : Prop := Forall2 Qeq u v.

(** The ratio is the finite value [q]. *)
Definition ratio_is (r : ratio) (q : Q) : Prop :=
  match r with
  | Finite x => x == q
  | _ => False
  end.

(** The throughput as the specification states it, over the rationals:
    [ns_iter = max(median, 1)], [iters_per_sec = 1e9 / ns_iter] and
    [throughput = (bytes_per_iter * iters_per_sec) / 1e6]. *)
Definition throughput_stated (median bytes_per_iter : Q) : Q :=
  let ns_iter := if Qlt_bool median 1 then 1 else median in
  let iters_per_sec := 1000000000 / ns_iter in
  (bytes_per_iter * iters_per_sec) / 1000000.

(** A callable that takes [cost] nanoseconds and leaves the bencher alone. *)
Definition busy (cost : Z) : Callable :=
  fun m => mkMachine (self m)
             (mkWorld (time (world m) + cost) (drift (world m))).

(** The state in which the first call of a batch finds the bencher. *)
Definition batch_start (iterations : Z) (m : Machine) : Machine :=
  mkMachine (mkBencher iterations 0 (bytes_ (self m))) (snd (now (world m))).

(** A callable that does not write the byte count. *)
Definition keeps_bytes (func : Callable) : Prop :=
  forall m, bytes_ (self (func m)) = bytes_ (self m).

(** How many samples of the vector are at most [q]. *)
Definition count_le (q : Q) (l : list Q) : nat :=
  length (filter (fun x => Qle_bool x q) l).

(** The clock reads the same time until a callable moves it. *)
Definition ideal (m : Machine) : Prop := drift (world m) = [].

(** The machine after a constant-cost callable ran for [elapsed]
    nanoseconds in batches that ended with [iterations] calls of [cost]. *)
Definition advanced (m : Machine) (iterations cost elapsed : Z) : Machine :=
  mkMachine (mkBencher iterations (iterations * cost) (bytes_ (self m)))
            (mkWorld (time (world m) + elapsed) []).

End Spec.

(** * Properties *)

Import Stats Bench Spec.
Open Scope Q_scope.

(** ** Comparisons *)

Lemma Qlt_bool_iff (a b : Q) : Qlt_bool a b = true <-> a < b.
Proof.
  unfold Qlt_bool. rewrite negb_true_iff. split.
  - intros H. apply Qnot_le_lt. intros Hle.
    apply Qle_bool_iff in Hle. congruence.
  - intros H. destruct (Qle_bool b a) eqn:E; [|reflexivity].
    apply Qle_bool_iff in E. lra.
Qed.

Lemma Qlt_bool_false (a b : Q) : Qlt_bool a b = false <-> b <= a.
Proof.
  unfold Qlt_bool. rewrite negb_false_iff. apply Qle_bool_iff.
Qed.

Lemma Qle_bool_false (a b : Q) : Qle_bool a b = false <-> b < a.
Proof.
  split.
  - intros H. apply Qnot_le_lt. intros Hle.
    apply Qle_bool_iff in Hle. congruence.
  - intros H. destruct (Qle_bool a b) eqn:E; [|reflexivity].
    apply Qle_bool_iff in E. lra.
Qed.

Lemma Qeq_bool_false (a b : Q) : Qeq_bool a b = false <-> ~ a == b.
Proof.
  split.
  - intros H Heq. apply Qeq_bool_iff in Heq. congruence.
  - intros H. destruct (Qeq_bool a b) eqn:E; [|reflexivity].
    apply Qeq_bool_iff in E. contradiction.
Qed.

(** ** Sorting *)

Lemma insert_length (x : Q) (l : list Q) :
  length (insert x l) = S (length l).
Proof.
  induction l as [|y l IH]; simpl; [reflexivity|].
  destruct (Qle_bool x y); simpl; congruence.
Qed.

Lemma sort_length (l : list Q) : length (sort l) = length l.
Proof.
  induction l as [|x l IH]; simpl; [reflexivity|].
  rewrite insert_length. congruence.
Qed.

Lemma insert_perm (x : Q) (l : list Q) : Permutation (x :: l) (insert x l).
Proof.
  induction l as [|y l IH]; simpl; [apply Permutation_refl|].
  destruct (Qle_bool x y); [apply Permutation_refl|].
  eapply perm_trans; [apply perm_swap|]. apply perm_skip, IH.
Qed.

Lemma sort_perm (l : list Q) : Permutation l (sort l).
Proof.
  induction l as [|x l IH]; simpl; [apply perm_nil|].
  eapply perm_trans; [apply perm_skip, IH|]. apply insert_perm.
Qed.

Lemma insert_Forall (P : Q -> Prop) (x : Q) (l : list Q) :
  P x -> Forall P l -> Forall P (insert x l).
Proof.
  intros Hx Hl. induction Hl as [|y l Hy Hl IH]; simpl.
  - constructor; [assumption|constructor].
  - destruct (Qle_bool x y); repeat constructor; assumption.
Qed.

Lemma insert_sorted (x : Q) (l : list Q) :
  StronglySorted Qle l -> StronglySorted Qle (insert x l).
Proof.
  intros Hs. induction Hs as [|y l Hs IH Hy]; simpl.
  - constructor; constructor.
  - destruct (Qle_bool x y) eqn:E.
    + apply Qle_bool_iff in E. constructor.
      * constructor; assumption.
      * constructor; [assumption|].
        eapply Forall_impl; [|exact Hy]. intros z Hz. simpl in Hz. lra.
    + apply Qle_bool_false in E. constructor; [assumption|].
      apply insert_Forall; [lra|assumption].
Qed.

Lemma sort_sorted (l : list Q) : StronglySorted Qle (sort l).
Proof.
  induction l as [|x l IH]; simpl; [constructor|].
  apply insert_sorted, IH.
Qed.

(** Sorting a vector that is already ascending changes nothing. *)
Lemma sort_id (l : list Q) : StronglySorted Qle l -> sort l = l.
Proof.
  intros Hs. induction Hs as [|x l Hs IH Hx]; simpl; [reflexivity|].
  rewrite IH. destruct Hx as [|y l Hy Hl]; simpl; [reflexivity|].
  apply Qle_bool_iff in Hy. rewrite Hy. reflexivity.
Qed.

Lemma sorted_nth (s : list Q) (i j : nat) (a b : Q) :
  StronglySorted Qle s -> (i <= j)%nat ->
  nth_error s i = Some a -> nth_error s j = Some b -> a <= b.
Proof.
  intros Hs. revert i j. induction Hs as [|x l Hs IH Hx]; intros i j Hij Ha Hb.
  - destruct i; discriminate.
  - destruct i as [|i], j as [|j]; simpl in *.
    + injection Ha as <-. injection Hb as <-. apply Qle_refl.
    + injection Ha as <-. apply nth_error_In in Hb.
      rewrite Forall_forall in Hx. apply Hx, Hb.
    + lia.
    + apply (IH i j); [lia|assumption|assumption].
Qed.

(** ** Ranks and indices *)

Lemma rank_nonneg (len : nat) (pct : Q) : 0 <= pct -> 0 <= rank len pct.
Proof.
  intros Hp. unfold rank, hundred.
  apply Qmult_le_0_compat.
  - apply Qle_shift_div_l; lra.
  - change 0 with (inject_Z 0). rewrite <- Zle_Qle. lia.
Qed.

Lemma rank_lt (len : nat) (pct : Q) :
  (2 <= len)%nat -> pct < 100 ->
  rank len pct < inject_Z (Z.of_nat (len - 1)).
Proof.
  intros Hlen Hp. unfold rank, hundred.
  assert (Hpos : 0 < inject_Z (Z.of_nat (len - 1))).
  { change 0 with (inject_Z 0). rewrite <- Zlt_Qlt. lia. }
  assert (Hfrac : pct / 100 < 1) by (apply Qlt_shift_div_r; lra).
  setoid_replace (inject_Z (Z.of_nat (len - 1)))
    with (1 * inject_Z (Z.of_nat (len - 1))) at 2 by ring.
  apply Qmult_lt_compat_r; assumption.
Qed.

Lemma rank_mono (len : nat) (p q : Q) : p <= q -> rank len p <= rank len q.
Proof.
  intros Hpq. unfold rank, hundred.
  apply Qmult_le_compat_r.
  - apply Qmult_le_compat_r; [assumption|]. discriminate.
  - change 0 with (inject_Z 0). rewrite <- Zle_Qle. lia.
Qed.

Lemma floor_rank_nonneg (len : nat) (pct : Q) :
  0 <= pct -> (0 <= Qfloor (rank len pct))%Z.
Proof.
  intros Hp. change 0%Z with (Qfloor 0).
  apply Qfloor_resp_le, rank_nonneg, Hp.
Qed.

(** Below 100 percent the two indices read by the interpolation are inside
    the vector. *)
Lemma below_in_range (len : nat) (pct : Q) :
  (2 <= len)%nat -> 0 <= pct -> pct < 100 ->
  (below len pct + 1 < len)%nat.
Proof.
  intros Hlen H0 H100. unfold below.
  pose proof (floor_rank_nonneg len pct H0) as Hf.
  pose proof (Qfloor_le (rank len pct)) as Hle.
  pose proof (rank_lt len pct Hlen H100) as Hlt.
  assert (Hz : (Qfloor (rank len pct) < Z.of_nat (len - 1))%Z).
  { rewrite Zlt_Qlt. lra. }
  lia.
Qed.

Lemma below_mono (len : nat) (p q : Q) :
  0 <= p -> p <= q -> (below len p <= below len q)%nat.
Proof.
  intros H0 Hpq. unfold below.
  apply Z2Nat.inj_le.
  - apply floor_rank_nonneg, H0.
  - apply floor_rank_nonneg. lra.
  - apply Qfloor_resp_le, rank_mono, Hpq.
Qed.

(** The fractional part of a rank. *)
Lemma frac_bounds (x : Q) :
  0 <= x - inject_Z (Qfloor x) /\ x - inject_Z (Qfloor x) < 1.
Proof.
  pose proof (Qfloor_le x) as Hle.
  pose proof (Qlt_floor x) as Hlt.
  rewrite inject_Z_plus in Hlt. change (inject_Z 1) with 1 in Hlt.
  split; lra.
Qed.

Lemma below_inject (len : nat) (pct : Q) :
  0 <= pct ->
  inject_Z (Z.of_nat (below len pct)) == inject_Z (Qfloor (rank len pct)).
Proof.
  intros Hp. unfold below. rewrite Z2Nat.id; [reflexivity|].
  apply floor_rank_nonneg, Hp.
Qed.

(** ** The percentile *)

Lemma percentile_unfold (s : list Q) (pct : Q) :
  (2 <= length s)%nat ->
  percentile_of_sorted s pct =
    if negb (Qle_bool 0 pct) then None
    else if negb (Qle_bool pct hundred) then None
    else if Qeq_bool pct hundred then nth_error s (length s - 1)
    else
      match nth_error s (below (length s) pct),
            nth_error s (below (length s) pct + 1) with
      | Some lo, Some hi =>
          Some (lo + (hi - lo)
                     * (rank (length s) pct
                        - inject_Z (Qfloor (rank (length s) pct))))
      | _, _ => None
      end.
Proof.
  intros Hlen. destruct s as [|x [|y t]]; simpl in Hlen; try lia.
  reflexivity.
Qed.

Lemma nth_error_in_range (s : list Q) (i : nat) :
  (i < length s)%nat -> exists v, nth_error s i = Some v.
Proof.
  intros Hi. destruct (nth_error s i) as [v|] eqn:E.
  - exists v. reflexivity.
  - apply nth_error_None in E. lia.
Qed.

Lemma percentile_last (s : list Q) (pct : Q) :
  (2 <= length s)%nat -> pct == 100 ->
  percentile_of_sorted s pct = nth_error s (length s - 1).
Proof.
  intros Hlen Hp. rewrite percentile_unfold by assumption.
  assert (H0 : Qle_bool 0 pct = true) by (apply Qle_bool_iff; lra).
  assert (H1 : Qle_bool pct hundred = true)
    by (apply Qle_bool_iff; unfold hundred; lra).
  assert (H2 : Qeq_bool pct hundred = true) by (apply Qeq_bool_iff, Hp).
  rewrite H0, H1, H2. reflexivity.
Qed.

Lemma percentile_interp (s : list Q) (pct : Q) :
  (2 <= length s)%nat -> 0 <= pct -> pct < 100 ->
  exists lo hi,
    nth_error s (below (length s) pct) = Some lo /\
    nth_error s (below (length s) pct + 1) = Some hi /\
    percentile_of_sorted s pct =
      Some (lo + (hi - lo)
                 * (rank (length s) pct
                    - inject_Z (Qfloor (rank (length s) pct)))).
Proof.
  intros Hlen Hp0 Hp1.
  pose proof (below_in_range (length s) pct Hlen Hp0 Hp1) as Hn.
  destruct (nth_error_in_range s (below (length s) pct)) as [lo Hlo]; [lia|].
  destruct (nth_error_in_range s (below (length s) pct + 1)) as [hi Hhi];
    [lia|].
  exists lo, hi. repeat split; try assumption.
  rewrite percentile_unfold by assumption.
  assert (H0 : Qle_bool 0 pct = true) by (apply Qle_bool_iff; lra).
  assert (H1 : Qle_bool pct hundred = true)
    by (apply Qle_bool_iff; unfold hundred; lra).
  assert (H2 : Qeq_bool pct hundred = false)
    by (apply Qeq_bool_false; unfold hundred; lra).
  rewrite H0, H1, H2, Hlo, Hhi. reflexivity.
Qed.

(** An interpolated value lies between the two samples it is taken from. *)
Lemma interp_between (lo hi d : Q) :
  lo <= hi -> 0 <= d -> d <= 1 ->
  lo <= lo + (hi - lo) * d /\ lo + (hi - lo) * d <= hi.
Proof.
  intros Hlh Hd0 Hd1. split; nra.
Qed.

Lemma interp_mono (lo hi d e : Q) :
  lo <= hi -> d <= e -> lo + (hi - lo) * d <= lo + (hi - lo) * e.
Proof.
  intros Hlh Hde. nra.
Qed.

Lemma Some_eq (x y : Q) : Some x = Some y -> x = y.
Proof. intros H. congruence. Qed.

Lemma percentile_mono (s : list Q) (p q a b : Q) :
  StronglySorted Qle s -> 0 <= p -> p <= q -> q <= 100 ->
  percentile_of_sorted s p = Some a ->
  percentile_of_sorted s q = Some b ->
  a <= b.
Proof.
  intros Hs Hp Hpq Hq Ha Hb.
  destruct (le_lt_dec 2 (length s)) as [Hlen|Hlen].
  2:{ destruct s as [|x [|y t]]; simpl in *; try lia; try discriminate.
      injection Ha as <-. injection Hb as <-. apply Qle_refl. }
  destruct (Qlt_le_dec q 100) as [Hq1|Hq1].
  - (* both values are interpolated *)
    destruct (percentile_interp s p Hlen Hp) as (lo & hi & Hlo & Hhi & Ep);
      [lra|].
    destruct (percentile_interp s q Hlen) as (lo' & hi' & Hlo' & Hhi' & Eq);
      [lra|assumption|].
    rewrite Ep in Ha. apply Some_eq in Ha. subst a.
    rewrite Eq in Hb. apply Some_eq in Hb. subst b.
    pose proof (frac_bounds (rank (length s) p)) as [Hd0 Hd1].
    pose proof (frac_bounds (rank (length s) q)) as [He0 He1].
    assert (Hlh : lo <= hi)
      by (apply (sorted_nth s _ _ lo hi Hs (Nat.le_add_r _ 1) Hlo Hhi)).
    assert (Hlh' : lo' <= hi')
      by (apply (sorted_nth s _ _ lo' hi' Hs (Nat.le_add_r _ 1) Hlo' Hhi')).
    pose proof (below_mono (length s) p q Hp Hpq) as Hn.
    destruct (Nat.eq_dec (below (length s) p) (below (length s) q)) as [E|E].
    + rewrite <- E in Hlo', Hhi'.
      assert (lo' = lo) by congruence. assert (hi' = hi) by congruence.
      subst lo' hi'.
      assert (Hf : Qfloor (rank (length s) p) = Qfloor (rank (length s) q)).
      { unfold below in E. apply Z2Nat.inj in E; [assumption| |].
        - apply floor_rank_nonneg, Hp.
        - apply floor_rank_nonneg. lra. }
      rewrite <- Hf. apply interp_mono; [assumption|].
      pose proof (rank_mono (length s) p q Hpq). lra.
    + assert (Hmid : hi <= lo').
      { apply (sorted_nth s (below (length s) p + 1) (below (length s) q));
          [assumption|lia|assumption|assumption]. }
      destruct (interp_between lo hi _ Hlh Hd0 (Qlt_le_weak _ _ Hd1)).
      destruct (interp_between lo' hi' _ Hlh' He0 (Qlt_le_weak _ _ He1)).
      lra.
  - (* the upper percentile is the last sample *)
    assert (Eq100 : q == 100) by lra.
    rewrite (percentile_last s q Hlen Eq100) in Hb.
    destruct (Qlt_le_dec p 100) as [Hp1|Hp1].
    + destruct (percentile_interp s p Hlen Hp Hp1)
        as (lo & hi & Hlo & Hhi & Ep).
      rewrite Ep in Ha. apply Some_eq in Ha. subst a.
      pose proof (frac_bounds (rank (length s) p)) as [Hd0 Hd1].
      assert (Hlh : lo <= hi)
        by (apply (sorted_nth s _ _ lo hi Hs (Nat.le_add_r _ 1) Hlo Hhi)).
      pose proof (below_in_range (length s) p Hlen Hp Hp1) as Hr.
      assert (Hlast : hi <= b).
      { apply (sorted_nth s (below (length s) p + 1) (length s - 1));
          [assumption|lia|assumption|assumption]. }
      destruct (interp_between lo hi _ Hlh Hd0 (Qlt_le_weak _ _ Hd1)).
      lra.
    + assert (Ep100 : p == 100) by lra.
      rewrite (percentile_last s p Hlen Ep100) in Ha.
      assert (a = b) by congruence. subst. apply Qle_refl.
Qed.

(** On a non-empty vector and a percentile in range the function returns,
    and its value is bounded by the first and the last sample. *)
Lemma percentile_bounds (s : list Q) (pct : Q) :
  s <> [] -> StronglySorted Qle s -> 0 <= pct -> pct <= 100 ->
  exists v first final,
    percentile_of_sorted s pct = Some v /\
    nth_error s 0 = Some first /\
    nth_error s (length s - 1) = Some final /\
    first <= v /\ v <= final.
Proof.
  intros Hne Hs Hp0 Hp1.
  destruct (le_lt_dec 2 (length s)) as [Hlen|Hlen].
  2:{ destruct s as [|x [|y t]]; simpl in *; try lia; try congruence.
      exists x, x, x. repeat split; apply Qle_refl. }
  destruct (nth_error_in_range s 0) as [first Hfirst]; [lia|].
  destruct (nth_error_in_range s (length s - 1)) as [final Hfinal]; [lia|].
  destruct (Qlt_le_dec pct 100) as [Hlt|Hge].
  - destruct (percentile_interp s pct Hlen Hp0 Hlt)
      as (lo & hi & Hlo & Hhi & Ep).
    pose proof (frac_bounds (rank (length s) pct)) as [Hd0 Hd1].
    pose proof (below_in_range (length s) pct Hlen Hp0 Hlt) as Hr.
    assert (Hlh : lo <= hi)
      by (apply (sorted_nth s _ _ lo hi Hs (Nat.le_add_r _ 1) Hlo Hhi)).
    assert (H1 : first <= lo).
    { apply (sorted_nth s 0 (below (length s) pct));
        [assumption|lia|assumption|assumption]. }
    assert (H2 : hi <= final).
    { apply (sorted_nth s (below (length s) pct + 1) (length s - 1));
        [assumption|lia|assumption|assumption]. }
    destruct (interp_between lo hi _ Hlh Hd0 (Qlt_le_weak _ _ Hd1)).
    eexists; exists first, final. split; [exact Ep|].
    repeat split; try assumption; lra.
  - assert (E : pct == 100) by lra.
    exists final, first, final.
    rewrite (percentile_last s pct Hlen E).
    repeat split; try assumption; [|apply Qle_refl].
    apply (sorted_nth s 0 (length s - 1));
      [assumption|lia|assumption|assumption].
Qed.

Lemma nth_error_last (s : list Q) (d : Q) :
  s <> [] -> nth_error s (length s - 1) = Some (last s d).
Proof.
  intros Hne. induction s as [|x s IH]; [congruence|].
  destruct s as [|y t]; [reflexivity|].
  replace (length (x :: y :: t) - 1)%nat with (S (length (y :: t) - 1))
    by (simpl; lia).
  change (last (x :: y :: t) d) with (last (y :: t) d).
  change (nth_error (y :: t) (length (y :: t) - 1) = Some (last (y :: t) d)).
  apply IH. discriminate.
Qed.

(** The ceiling of a rank is its floor, when the rank is whole, or the
    index after it. *)
Lemma ceiling_cases (x : Q) :
  (Qceiling x = Qfloor x /\ x == inject_Z (Qfloor x)) \/
  Qceiling x = (Qfloor x + 1)%Z.
Proof.
  pose proof (Qfloor_le x) as H1.
  pose proof (Qlt_floor x) as H2.
  pose proof (Qle_ceiling x) as H3.
  pose proof (Qceiling_lt x) as H4.
  assert (Hlo : (Qfloor x <= Qceiling x)%Z) by (rewrite Zle_Qle; lra).
  assert (Hhi : (Qceiling x - 1 < Qfloor x + 1)%Z) by (rewrite Zlt_Qlt; lra).
  destruct (Z.eq_dec (Qceiling x) (Qfloor x)) as [E|E].
  - left. split; [assumption|]. rewrite E in H3. lra.
  - right. lia.
Qed.

(** ** C5 *)

(** C5. On a non-empty ascending vector and a percentile between 0 and 100,
    [percentile_of_sorted] returns the only sample of a one-element vector,
    the last sample at 100 percent, and otherwise the linear interpolation
    at rank [(pct/100) * (len-1)] between the samples at the floor and the
    ceiling of the rank, both inside the vector; on [1,2,3,4,5] it gives 3
    at 50, 1 at 0, 5 at 100 and 2 at 25. *)
Theorem percentile_interpolates (s : list Q) (pct : Q) :
  s <> [] -> StronglySorted Qle s -> 0 <= pct -> pct <= 100 ->
  (forall x, s = [x] -> percentile_of_sorted s pct = Some x) /\
  (pct == 100 -> percentile_of_sorted s pct = Some (last s 0)) /\
  ((2 <= length s)%nat -> pct < 100 ->
   (above (length s) pct < length s)%nat /\
   exists lo hi,
     nth_error s (below (length s) pct) = Some lo /\
     nth_error s (above (length s) pct) = Some hi /\
     returns (percentile_of_sorted s pct)
       (lo + (hi - lo)
             * (rank (length s) pct
                - inject_Z (Z.of_nat (below (length s) pct))))) /\
  returns (percentile_of_sorted [1; 2; 3; 4; 5] 50) 3 /\
  returns (percentile_of_sorted [1; 2; 3; 4; 5] 0) 1 /\
  returns (percentile_of_sorted [1; 2; 3; 4; 5] 100) 5 /\
  returns (percentile_of_sorted [1; 2; 3; 4; 5] 25) 2.
Proof.
  intros Hne Hs Hp0 Hp1. repeat split; try (vm_compute; reflexivity).
  - intros x ->. reflexivity.
  - intros E. destruct (le_lt_dec 2 (length s)) as [Hlen|Hlen].
    + rewrite (percentile_last s pct Hlen E). apply nth_error_last, Hne.
    + destruct s as [|x [|y t]]; simpl in *; try lia; congruence.
  - pose proof (below_in_range (length s) pct H Hp0 H0) as Hr.
    unfold above.
    destruct (ceiling_cases (rank (length s) pct)) as [[E _]|E];
      rewrite E; fold (below (length s) pct).
    + lia.
    + rewrite Z2Nat.inj_add by
        (try apply floor_rank_nonneg; try assumption; lia).
      fold (below (length s) pct). change (Z.to_nat 1) with 1%nat. lia.
  - destruct (percentile_interp s pct H Hp0 H0)
      as (lo & hi & Hlo & Hhi & Ep).
    rewrite Ep. unfold returns, above.
    destruct (ceiling_cases (rank (length s) pct)) as [[E Ew]|E]; rewrite E.
    + exists lo, lo. fold (below (length s) pct).
      repeat split; try assumption.
      rewrite (below_inject (length s) pct Hp0).
      rewrite <- Ew. ring.
    + exists lo, hi. rewrite Z2Nat.inj_add by
        (try apply floor_rank_nonneg; try assumption; lia).
      fold (below (length s) pct). change (Z.to_nat 1) with 1%nat.
      repeat split; try assumption.
      rewrite (below_inject (length s) pct Hp0). reflexivity.
Qed.

Lemma is_sorted_ok (l : list Q) : is_sorted l = true -> StronglySorted Qle l.
Proof.
  induction l as [|x l IH]; simpl; intros H; [constructor|].
  apply andb_true_iff in H. destruct H as [Hx Hl].
  constructor; [apply IH, Hl|].
  apply Forall_forall. intros y Hy.
  rewrite forallb_forall in Hx. apply Qle_bool_iff, Hx, Hy.
Qed.

Lemma percentile_interpolates_witness :
  (2 <= length [1; 2; 3; 4; 5])%nat /\ 25 < 100 /\
  exists lo hi,
    nth_error [1; 2; 3; 4; 5] (below 5 25) = Some lo /\
    nth_error [1; 2; 3; 4; 5] (above 5 25) = Some hi /\
    returns (percentile_of_sorted [1; 2; 3; 4; 5] 25)
      (lo + (hi - lo) * (rank 5 25 - inject_Z (Z.of_nat (below 5 25)))).
Proof.
  assert (Hne : [1; 2; 3; 4; 5] <> []) by discriminate.
  assert (Hs : StronglySorted Qle [1; 2; 3; 4; 5])
    by (apply is_sorted_ok; reflexivity).
  assert (H0 : 0 <= 25) by (unfold Qle; simpl; lia).
  assert (H1 : 25 <= 100) by (unfold Qle; simpl; lia).
  assert (Hlen : (2 <= length [1; 2; 3; 4; 5])%nat) by (simpl; lia).
  assert (Hlt : 25 < 100) by reflexivity.
  split; [exact Hlen|]. split; [exact Hlt|].
  exact (proj2 (proj1 (proj2 (proj2
    (percentile_interpolates [1; 2; 3; 4; 5] 25 Hne Hs H0 H1))) Hlen Hlt)).
Defined.

(** ** The bounds of [winsorize] *)

Lemma sort_nonempty (samples : list Q) : samples <> [] -> sort samples <> [].
Proof.
  intros Hne E. apply (f_equal (@length Q)) in E.
  rewrite sort_length in E. destruct samples; [congruence|discriminate].
Qed.

Lemma winsorize_bounds (samples : list Q) (pct : Q) :
  samples <> [] -> 0 <= pct -> pct <= 50 ->
  exists lo hi,
    percentile_of_sorted (sort samples) pct = Some lo /\
    percentile_of_sorted (sort samples) (100 - pct) = Some hi /\
    lo <= hi.
Proof.
  intros Hne Hpct0 Hpct1.
  pose proof (sort_nonempty samples Hne) as Hne2.
  pose proof (sort_sorted samples) as Hs2.
  destruct (percentile_bounds (sort samples) pct Hne2 Hs2 Hpct0)
    as (lo & _ & _ & Elo & _); [lra|].
  destruct (percentile_bounds (sort samples) (100 - pct) Hne2 Hs2)
    as (hi & _ & _ & Ehi & _); [lra|lra|].
  exists lo, hi. repeat split; try assumption.
  apply (percentile_mono (sort samples) pct (100 - pct) lo hi);
    try assumption; lra.
Qed.

(** ** C10 *)

(** C10. On a non-empty ascending vector [percentile_of_sorted] returns for
    every percentile between 0 and 100, its value does not decrease when
    the percentile grows, and it lies between the first and the last
    sample; so the bounds that [winsorize] computes for a percentile
    between 0 and 50 satisfy [lo <= hi]. *)
Theorem percentile_monotone (s samples : list Q) (p q pct : Q) :
  s <> [] -> StronglySorted Qle s ->
  0 <= p -> p <= q -> q <= 100 ->
  samples <> [] -> 0 <= pct -> pct <= 50 ->
  (exists a b first final,
     percentile_of_sorted s p = Some a /\
     percentile_of_sorted s q = Some b /\
     nth_error s 0 = Some first /\
     nth_error s (length s - 1) = Some final /\
     first <= a /\ a <= b /\ b <= final) /\
  (exists lo hi,
     percentile_of_sorted (sort samples) pct = Some lo /\
     percentile_of_sorted (sort samples) (100 - pct) = Some hi /\
     lo <= hi).
Proof.
  intros Hne Hs Hp Hpq Hq Hne' Hpct0 Hpct1. split.
  - destruct (percentile_bounds s p Hne Hs Hp)
      as (a & first & final & Ea & Hfirst & Hfinal & Ha1 & Ha2); [lra|].
    destruct (percentile_bounds s q Hne Hs)
      as (b & first' & final' & Eb & Hfirst' & Hfinal' & Hb1 & Hb2);
      [lra|assumption|].
    assert (first' = first) by congruence.
    assert (final' = final) by congruence. subst.
    exists a, b, first, final. repeat split; try assumption.
    apply (percentile_mono s p q a b); assumption.
  - apply winsorize_bounds; assumption.
Qed.

Lemma percentile_monotone_witness :
  exists a b,
    percentile_of_sorted [1; 2; 3; 4; 5] 25 = Some a /\
    percentile_of_sorted [1; 2; 3; 4; 5] 50 = Some b /\
    a <= b.
Proof.
  assert (Hne : [1; 2; 3; 4; 5] <> []) by discriminate.
  assert (Hs : StronglySorted Qle [1; 2; 3; 4; 5])
    by (apply is_sorted_ok; reflexivity).
  assert (H0 : 0 <= 25) by (unfold Qle; simpl; lia).
  assert (H1 : 25 <= 50) by (unfold Qle; simpl; lia).
  assert (H2 : 50 <= 100) by (unfold Qle; simpl; lia).
  assert (Hne' : [3; 1; 2] <> []) by discriminate.
  assert (H3 : 0 <= 5) by (unfold Qle; simpl; lia).
  assert (H4 : 5 <= 50) by (unfold Qle; simpl; lia).
  destruct (percentile_monotone [1; 2; 3; 4; 5] [3; 1; 2] 25 50 5
              Hne Hs H0 H1 H2 Hne' H3 H4)
    as [(a & b & first & final & Ea & Eb & _ & _ & _ & Hab & _) _].
  exists a, b. repeat split; assumption.
Defined.

(** ** C6 *)

Lemma clamp_clamped (lo hi x : Q) : lo <= hi -> clamped lo hi x (clamp lo hi x).
Proof.
  intros Hlh. unfold clamped, clamp.
  destruct (Qlt_bool hi x) eqn:E1.
  - apply Qlt_bool_iff in E1. repeat split; intros; try reflexivity; lra.
  - apply Qlt_bool_false in E1. destruct (Qlt_bool x lo) eqn:E2.
    + apply Qlt_bool_iff in E2. repeat split; intros; try reflexivity; lra.
    + apply Qlt_bool_false in E2. repeat split; intros; try reflexivity; lra.
Qed.

Lemma Forall2_map_graph (P : Q -> Q -> Prop) (f : Q -> Q) (l : list Q) :
  (forall x, P x (f x)) -> Forall2 P l (map f l).
Proof.
  intros H. induction l as [|x l IH]; simpl; constructor; auto.
Qed.

(** C6. For a non-empty vector and a percentile between 0 and 50,
    [winsorize] returns a vector of the same size: with [lo] and [hi] the
    percentiles [pct] and [100 - pct] of the sorted vector, every sorted
    sample above [hi] becomes [hi], every one below [lo] becomes [lo], and
    the others are kept.  On [1..100] at 5 percent the samples 6 to 95 are
    kept, the five below become the 5th percentile, the five above become
    the 95th percentile, and there are still 100 samples. *)
Theorem winsorize_clamps (samples : list Q) (pct : Q) :
  samples <> [] -> 0 <= pct -> pct <= 50 ->
  (exists lo hi w,
     percentile_of_sorted (sort samples) pct = Some lo /\
     percentile_of_sorted (sort samples) (100 - pct) = Some hi /\
     winsorize samples pct = Some w /\
     length w = length samples /\
     Forall2 (clamped lo hi) (sort samples) w) /\
  (exists lo hi w,
     percentile_of_sorted (range 1 100) 5 = Some lo /\
     percentile_of_sorted (range 1 100) 95 = Some hi /\
     winsorize (range 1 100) 5 = Some w /\
     length w = 100%nat /\
     w = repeat lo 5 ++ range 6 90 ++ repeat hi 5).
Proof.
  intros Hne Hp0 Hp1. split.
  - destruct (winsorize_bounds samples pct Hne Hp0 Hp1)
      as (lo & hi & Elo & Ehi & Hlh).
    exists lo, hi, (map (clamp lo hi) (sort samples)).
    unfold winsorize. rewrite Elo, Ehi.
    repeat split; try reflexivity.
    + rewrite length_map. apply sort_length.
    + apply Forall2_map_graph. intros x. apply clamp_clamped, Hlh.
  - do 3 eexists.
    split; [vm_compute; reflexivity|].
    split; [vm_compute; reflexivity|].
    split; [vm_compute; reflexivity|].
    split; vm_compute; reflexivity.
Qed.

Lemma winsorize_clamps_witness :
  exists w, winsorize [3; 1; 2] 5 = Some w /\ length w = 3%nat.
Proof.
  assert (Hne : [3; 1; 2] <> []) by discriminate.
  assert (H0 : 0 <= 5) by (unfold Qle; simpl; lia).
  assert (H1 : 5 <= 50) by (unfold Qle; simpl; lia).
  destruct (winsorize_clamps [3; 1; 2] 5 Hne H0 H1)
    as [(lo & hi & w & _ & _ & Ew & Hlen & _) _].
  exists w. split; assumption.
Defined.

(** ** Winsorizing twice *)

Lemma clamp_range (lo hi x : Q) :
  lo <= hi -> lo <= clamp lo hi x /\ clamp lo hi x <= hi.
Proof.
  intros Hlh. unfold clamp.
  destruct (Qlt_bool hi x) eqn:E1; [split; lra|].
  apply Qlt_bool_false in E1.
  destruct (Qlt_bool x lo) eqn:E2; [split; lra|].
  apply Qlt_bool_false in E2. split; lra.
Qed.

Lemma clamp_mono (lo hi x y : Q) :
  lo <= hi -> x <= y -> clamp lo hi x <= clamp lo hi y.
Proof.
  intros Hlh Hxy. unfold clamp.
  destruct (Qlt_bool hi x) eqn:X1; destruct (Qlt_bool hi y) eqn:Y1;
    destruct (Qlt_bool x lo) eqn:X2; destruct (Qlt_bool y lo) eqn:Y2;
    repeat match goal with
      | H : Qlt_bool _ _ = true |- _ => apply Qlt_bool_iff in H
      | H : Qlt_bool _ _ = false |- _ => apply Qlt_bool_false in H
      end; lra.
Qed.

(** A sample already between the bounds is kept as it is, whatever the
    representation of the bounds. *)
Lemma clamp_inside (lo hi lo' hi' x : Q) :
  lo' == lo -> hi' == hi -> lo <= x -> x <= hi -> clamp lo' hi' x = x.
Proof.
  intros El Eh H1 H2. unfold clamp.
  destruct (Qlt_bool hi' x) eqn:E1.
  - apply Qlt_bool_iff in E1. lra.
  - destruct (Qlt_bool x lo') eqn:E2; [|reflexivity].
    apply Qlt_bool_iff in E2. lra.
Qed.

Lemma map_sorted (g : Q -> Q) (s : list Q) :
  (forall x y, x <= y -> g x <= g y) ->
  StronglySorted Qle s -> StronglySorted Qle (map g s).
Proof.
  intros Hg Hs. induction Hs as [|x l Hs IH Hx]; simpl; constructor.
  - exact IH.
  - apply Forall_forall. intros y Hy. apply in_map_iff in Hy.
    destruct Hy as (z & <- & Hz). rewrite Forall_forall in Hx.
    apply Hg, Hx, Hz.
Qed.

Lemma map_id_on (g : Q -> Q) (l : list Q) :
  Forall (fun x => g x = x) l -> map g l = l.
Proof.
  intros H. induction H as [|x l Hx Hl IH]; simpl; congruence.
Qed.

(** ** C2 *)

(** C2, as the code has it.  [winsorize] interpolates its bounds between
    two neighbouring samples; after the first pass the lower of the two has
    moved up to the bound, so a second pass interpolates a higher bound.
    On [0, 10, 20] at 25 percent the first pass gives [5, 10, 15] and the
    second [7.5, 10, 12.5]; on [1..100] at 5 percent the second pass is
    not the first either. *)
Lemma winsorize_twice_differs :
  (exists w w',
     winsorize [0; 10; 20] 25 = Some w /\
     winsorize w 25 = Some w' /\
     same_values w [5; 10; 15] /\
     same_values w' [75 # 10; 10; 125 # 10] /\
     ~ same_values w' w) /\
  (exists w w',
     winsorize (range 1 100) 5 = Some w /\
     winsorize w 5 = Some w' /\
     ~ same_values w' w).
Proof.
  split.
  - do 2 eexists.
    split; [vm_compute; reflexivity|].
    split; [vm_compute; reflexivity|].
    split; [repeat constructor|].
    split; [repeat constructor|].
    intros H. inversion H as [|x y l l' Hxy Hl]; subst.
    vm_compute in Hxy. discriminate.
  - do 2 eexists.
    split; [vm_compute; reflexivity|].
    split; [vm_compute; reflexivity|].
    intros H. inversion H as [|x y l l' Hxy Hl]; subst.
    vm_compute in Hxy. discriminate.
Qed.

Lemma clamp_low (lo hi x : Q) : lo <= hi -> x <= lo -> clamp lo hi x == lo.
Proof.
  intros Hlh Hx. unfold clamp.
  destruct (Qlt_bool hi x) eqn:E1.
  - apply Qlt_bool_iff in E1. lra.
  - destruct (Qlt_bool x lo) eqn:E2; [reflexivity|].
    apply Qlt_bool_false in E2. lra.
Qed.

Lemma clamp_high (lo hi x : Q) : lo <= hi -> hi <= x -> clamp lo hi x == hi.
Proof.
  intros Hlh Hx. unfold clamp.
  destruct (Qlt_bool hi x) eqn:E1; [reflexivity|].
  apply Qlt_bool_false in E1.
  destruct (Qlt_bool x lo) eqn:E2.
  - apply Qlt_bool_iff in E2. lra.
  - lra.
Qed.

(** A sample that the loop of [winsorize] leaves as it is lies between the
    bounds. *)
Lemma clamp_fixed (lo hi y : Q) : clamp lo hi y = y -> lo <= y /\ y <= hi.
Proof.
  unfold clamp. intros H.
  destruct (Qlt_bool hi y) eqn:E1.
  - apply Qlt_bool_iff in E1. rewrite H in E1. lra.
  - apply Qlt_bool_false in E1. destruct (Qlt_bool y lo) eqn:E2.
    + apply Qlt_bool_iff in E2. rewrite H in E2. lra.
    + apply Qlt_bool_false in E2. split; assumption.
Qed.

Lemma map_fixed (g : Q -> Q) (l : list Q) :
  map g l = l -> Forall (fun y => g y = y) l.
Proof.
  induction l as [|x l IH]; simpl; intros H; [constructor|].
  injection H as Hx Hl. constructor; [exact Hx|apply IH, Hl].
Qed.

(** Two percentiles of the same value give the same result. *)
Lemma percentile_pct_compat (s : list Q) (p q a b : Q) :
  StronglySorted Qle s -> 0 <= p -> p == q -> q <= 100 ->
  percentile_of_sorted s p = Some a ->
  percentile_of_sorted s q = Some b ->
  a == b.
Proof.
  intros Hs Hp Hpq Hq Ha Hb. apply Qle_antisym.
  - apply (percentile_mono s p q a b); try assumption. lra.
  - apply (percentile_mono s q p b a); try assumption; lra.
Qed.

(** The percentile 0 is the first sample and the percentile 100 the last
    one. *)
Lemma percentile_zero (s : list Q) (pct v first : Q) :
  pct == 0 ->
  percentile_of_sorted s pct = Some v ->
  nth_error s 0 = Some first ->
  v == first.
Proof.
  intros Hp Hv Hfirst.
  destruct (le_lt_dec 2 (length s)) as [Hlen|Hlen].
  - destruct (percentile_interp s pct Hlen) as (lo & hi & Hlo & _ & E);
      [lra|lra|].
    assert (Hr : rank (length s) pct == inject_Z 0).
    { unfold rank, hundred. rewrite Hp. simpl inject_Z at 2. field. }
    assert (Hb : below (length s) pct = 0%nat)
      by (unfold below; rewrite (Qfloor_comp _ _ Hr), Qfloor_Z; reflexivity).
    rewrite Hb in Hlo. assert (lo = first) by congruence. subst lo.
    rewrite E in Hv. apply Some_eq in Hv. subst v.
    rewrite (Qfloor_comp _ _ Hr), Qfloor_Z, Hr. ring.
  - destruct s as [|x [|y t]]; simpl in *; try lia; try discriminate.
    assert (v = x) by congruence. assert (first = x) by congruence.
    subst. reflexivity.
Qed.

Lemma percentile_hundred (s : list Q) (pct v final : Q) :
  pct == 100 ->
  percentile_of_sorted s pct = Some v ->
  nth_error s (length s - 1) = Some final ->
  v = final.
Proof.
  intros Hp Hv Hfinal.
  destruct (le_lt_dec 2 (length s)) as [Hlen|Hlen].
  - rewrite (percentile_last s pct Hlen Hp) in Hv. congruence.
  - destruct s as [|x [|y t]]; simpl in *; try lia; try discriminate.
    congruence.
Qed.

(** C2, amended.  For a non-empty vector and a percentile between 0 and
    50, winsorizing the winsorized vector [w] again returns a vector [w']
    of the same size: the bounds [lo'] and [hi'] recomputed on [w] lie
    within the first bounds, [lo <= lo' <= hi' <= hi], the samples of [w]
    above [hi'] become [hi'] and those below [lo'] become [lo'], and [w']
    is [w] exactly when the recomputed bounds are the first ones.  That is
    so at 0 percent, at 50 percent and for a one-element vector; between
    them the bounds are interpolated and the second pass can move the
    clamped samples further inward. *)
Theorem winsorize_twice (samples : list Q) (pct : Q) :
  samples <> [] -> 0 <= pct -> pct <= 50 ->
  exists lo hi w lo' hi' w',
    percentile_of_sorted (sort samples) pct = Some lo /\
    percentile_of_sorted (sort samples) (100 - pct) = Some hi /\
    winsorize samples pct = Some w /\
    percentile_of_sorted (sort w) pct = Some lo' /\
    percentile_of_sorted (sort w) (100 - pct) = Some hi' /\
    winsorize w pct = Some w' /\
    length w' = length samples /\
    lo <= lo' /\ lo' <= hi' /\ hi' <= hi /\
    Forall2 (clamped lo' hi') w w' /\
    (w' = w <-> lo' == lo /\ hi' == hi) /\
    (pct == 0 \/ pct == 50 \/ length samples = 1%nat -> w' = w).
Proof.
  intros Hne Hp0 Hp1.
  destruct (winsorize_bounds samples pct Hne Hp0 Hp1)
    as (lo & hi & Elo & Ehi & Hlh).
  pose proof (sort_sorted samples) as Hs.
  pose proof (sort_nonempty samples Hne) as Hsne.
  pose proof (sort_length samples) as Hslen.
  set (s := sort samples) in *.
  set (w := map (clamp lo hi) s).
  assert (Hw : winsorize samples pct = Some w).
  { unfold winsorize. fold s. rewrite Elo, Ehi. reflexivity. }
  assert (Hws : StronglySorted Qle w).
  { apply map_sorted; [|exact Hs]. intros x y. apply clamp_mono, Hlh. }
  assert (Hsw : sort w = w) by (apply sort_id, Hws).
  assert (Hwlen : length w = length s) by (unfold w; apply length_map).
  assert (Hwne : w <> []).
  { intros E. rewrite E in Hwlen. destruct s; [congruence|discriminate]. }
  (* the first and the last sample, before and after the first pass *)
  destruct (percentile_bounds s pct Hsne Hs Hp0)
    as (lo0 & first & final & Elo0 & Hfirst & Hfinal & Hfl & _); [lra|].
  assert (lo0 = lo) by congruence. subst lo0.
  destruct (percentile_bounds s (100 - pct) Hsne Hs)
    as (hi0 & first0 & final0 & Ehi0 & _ & Hfinal0 & _ & Hhf); [lra|lra|].
  assert (hi0 = hi) by congruence. subst hi0.
  assert (final0 = final) by congruence. subst final0.
  destruct (percentile_bounds w pct Hwne Hws Hp0)
    as (lo' & wfirst & wfinal & Elo' & Hwfirst & Hwfinal & Hl1 & _); [lra|].
  destruct (percentile_bounds w (100 - pct) Hwne Hws)
    as (hi' & wfirst0 & wfinal0 & Ehi' & _ & Hwfinal0 & _ & Hh2); [lra|lra|].
  assert (wfinal0 = wfinal) by congruence. subst wfinal0.
  assert (Ewfirst : wfirst = clamp lo hi first).
  { apply Some_eq. rewrite <- Hwfirst. apply map_nth_error, Hfirst. }
  assert (Ewfinal : wfinal = clamp lo hi final).
  { apply Some_eq. rewrite <- Hwfinal, Hwlen. apply map_nth_error, Hfinal. }
  assert (Hwf : wfirst == lo) by (rewrite Ewfirst; apply clamp_low; assumption).
  assert (Hwl : wfinal == hi) by (rewrite Ewfinal; apply clamp_high; assumption).
  assert (Hll : lo <= lo') by lra.
  assert (Hhh : hi' <= hi) by lra.
  assert (Hlh' : lo' <= hi').
  { apply (percentile_mono w pct (100 - pct) lo' hi'); try assumption; lra. }
  set (w' := map (clamp lo' hi') w).
  assert (Hw' : winsorize w pct = Some w').
  { unfold winsorize. rewrite Hsw, Elo', Ehi'. reflexivity. }
  assert (Hback : lo' == lo /\ hi' == hi -> w' = w).
  { intros [El Eh]. apply map_id_on. apply Forall_forall. intros y Hy.
    unfold w in Hy. apply in_map_iff in Hy. destruct Hy as (x & <- & _).
    destruct (clamp_range lo hi x Hlh).
    apply (clamp_inside lo hi); assumption. }
  exists lo, hi, w, lo', hi', w'. rewrite Hsw.
  split; [exact Elo|]. split; [exact Ehi|]. split; [exact Hw|].
  split; [exact Elo'|]. split; [exact Ehi'|]. split; [exact Hw'|].
  split; [unfold w'; rewrite length_map; lia|].
  split; [exact Hll|]. split; [exact Hlh'|]. split; [exact Hhh|].
  split.
  { apply Forall2_map_graph. intros x. apply clamp_clamped, Hlh'. }
  split.
  { split; [|exact Hback]. intros E.
    apply map_fixed in E. rewrite Forall_forall in E.
    destruct (clamp_fixed lo' hi' wfirst) as [H1 _];
      [apply E, (nth_error_In _ _ Hwfirst)|].
    destruct (clamp_fixed lo' hi' wfinal) as [_ H2];
      [apply E, (nth_error_In _ _ Hwfinal)|].
    split; lra. }
  intros [Hz|[Hh|Hone]]; apply Hback.
  - split.
    + rewrite (percentile_zero w pct lo' wfirst Hz Elo' Hwfirst). exact Hwf.
    + rewrite (percentile_hundred w (100 - pct) hi' wfinal); try assumption.
      lra.
  - assert (E : lo == hi).
    { apply (percentile_pct_compat s pct (100 - pct)); try assumption; lra. }
    split; lra.
  - assert (E : lo == hi).
    { rewrite <- Hslen in Hone.
      destruct s as [|x [|y t]]; simpl in Hone; try lia.
      simpl in Elo, Ehi. assert (lo = x) by congruence.
      assert (hi = x) by congruence. subst. reflexivity. }
    split; lra.
Qed.

Lemma winsorize_twice_witness :
  exists w w',
    winsorize [20; 0; 10; 30] 5 = Some w /\
    winsorize w 5 = Some w' /\
    length w' = 4%nat.
Proof.
  assert (Hne : [20; 0; 10; 30] <> []) by discriminate.
  assert (H0 : 0 <= 5) by (unfold Qle; simpl; lia).
  assert (H1 : 5 <= 50) by (unfold Qle; simpl; lia).
  destruct (winsorize_twice [20; 0; 10; 30] 5 Hne H0 H1)
    as (lo & hi & w & lo' & hi' & w' & _ & _ & Ew & _ & _ & Ew' & Hlen & _).
  exists w, w'. repeat split; assumption.
Defined.

(** ** C3 *)

Lemma repeat_sorted (v : Q) (n : nat) : StronglySorted Qle (repeat v n).
Proof.
  induction n as [|n IH]; simpl; constructor; [exact IH|].
  apply Forall_forall. intros y Hy. apply repeat_spec in Hy. subst.
  apply Qle_refl.
Qed.

(** Every percentile of a constant vector is its value. *)
Lemma percentile_repeat (v pct : Q) (n : nat) :
  0 <= pct -> pct <= 100 ->
  exists m, percentile_of_sorted (repeat v (S n)) pct = Some m /\ m == v.
Proof.
  intros Hp0 Hp1.
  destruct (percentile_bounds (repeat v (S n)) pct)
    as (m & first & final & Em & Hfirst & Hfinal & H1 & H2);
    try assumption; [discriminate|apply repeat_sorted|].
  assert (first = v) by (simpl in Hfirst; congruence).
  assert (final = v).
  { rewrite nth_error_repeat in Hfinal by (rewrite repeat_length; lia).
    congruence. }
  subst. exists m. split; [exact Em|]. lra.
Qed.

Lemma calc_median_repeat (v : Q) (n : nat) :
  exists m, calc_median (repeat v (S n)) = Some m /\ m == v.
Proof.
  unfold calc_median, calc_percentile.
  rewrite (sort_id _ (repeat_sorted v (S n))).
  apply percentile_repeat; lra.
Qed.

Lemma calc_median_abs_dev_repeat (v : Q) (n : nat) :
  exists d, calc_median_abs_dev (repeat v (S n)) = Some d /\ d == 0.
Proof.
  unfold calc_median_abs_dev.
  destruct (calc_median_repeat v n) as (m & Em & Hm). rewrite Em.
  rewrite map_repeat.
  destruct (calc_median_repeat (m - v) n) as (m' & Em' & Hm'). rewrite Em'.
  exists (m' * scale). split; [reflexivity|]. rewrite Hm', Hm. ring.
Qed.

(** C3, as the code has it.  The ratio [100 * median_abs_dev / median] is
    not guarded: for the constant vector of zeros it is [0 / 0], not 0. *)
Lemma summary_of_zeros_ratio :
  exists s,
    Summary_of [0; 0; 0] = Some s /\
    median s == 0 /\ median_abs_dev s == 0 /\
    median_abs_dev_pct s = NaN /\
    ~ ratio_is (median_abs_dev_pct s) 0.
Proof.
  eexists. split; [vm_compute; reflexivity|].
  simpl. repeat split. intros H. exact H.
Qed.

(** C3, amended.  The summary of a one-element vector has [max], [min] and
    [median] equal to the element and [median_abs_dev] equal to 0; the
    summary of a constant vector of [v] has [median] equal to [v] and
    [median_abs_dev] equal to 0, whatever [v] is; its
    [median_abs_dev_pct] is 0 when [v] is not 0, and NaN when [v] is 0. *)
Theorem summary_of_constant (x v : Q) (n : nat) :
  (exists s,
     Summary_of [x] = Some s /\
     max s = x /\ min s = x /\ median s = x /\ median_abs_dev s == 0) /\
  (exists s,
     Summary_of (repeat v (S n)) = Some s /\
     median s == v /\ median_abs_dev s == 0 /\
     (~ v == 0 -> ratio_is (median_abs_dev_pct s) 0) /\
     (v == 0 -> median_abs_dev_pct s = NaN)).
Proof.
  split.
  - eexists. split; [reflexivity|]. simpl. repeat split. ring.
  - unfold Summary_of.
    destruct (calc_median_repeat v n) as (m & Em & Hm).
    destruct (calc_median_abs_dev_repeat v n) as (d & Ed & Hd).
    change (calc_max (repeat v (S n)))
      with (Some (fold_left (fun largest y => if Qlt_bool largest y then y else largest)
                    (repeat v n) v)).
    change (calc_min (repeat v (S n)))
      with (Some (fold_left (fun smallest y => if Qlt_bool y smallest then y else smallest)
                    (repeat v n) v)).
    cbv beta iota. rewrite Em, Ed.
    eexists. split; [reflexivity|]. simpl.
    split; [exact Hm|]. split; [exact Hd|]. unfold divide. split.
    + intros Hv.
      assert (E : Qeq_bool m 0 = false) by (apply Qeq_bool_false; lra).
      rewrite E. simpl. rewrite Hd. field. lra.
    + intros Hv.
      assert (E : Qeq_bool m 0 = true) by (apply Qeq_bool_iff; lra).
      assert (E1 : Qlt_bool 0 (100 * d) = false)
        by (apply Qlt_bool_false; lra).
      assert (E2 : Qlt_bool (100 * d) 0 = false)
        by (apply Qlt_bool_false; lra).
      rewrite E, E1, E2. reflexivity.
Qed.

Lemma summary_of_constant_witness :
  (exists s,
     Summary_of (repeat 7 3) = Some s /\
     median s == 7 /\ median_abs_dev s == 0 /\
     ratio_is (median_abs_dev_pct s) 0) /\
  (exists s,
     Summary_of (repeat 0 3) = Some s /\
     median s == 0 /\ median_abs_dev s == 0 /\
     median_abs_dev_pct s = NaN).
Proof.
  split.
  - destruct (proj2 (summary_of_constant 1 7 2)) as (s & Es & Hm & Hd & Hr & _).
    exists s. repeat split; try assumption. apply Hr. discriminate.
  - destruct (proj2 (summary_of_constant 1 0 2)) as (s & Es & Hm & Hd & _ & Hn).
    exists s. repeat split; try assumption. apply Hn. reflexivity.
Defined.

(** ** C1 *)

Open Scope Z_scope.



(** ** C8 *)

(** What the budget test does with the value of [total_run] it is given. *)
Lemma loop_exit_budget (total_run loop_run : Z) (summ summ5 : Summary) :
  3000000000 < total_run + loop_run ->
  loop_exit total_run loop_run summ summ5 = Return summ5.
Proof.
  intros H. unfold loop_exit.
  destruct (converged loop_run summ summ5); [reflexivity|].
  apply Z.ltb_lt in H. rewrite H. reflexivity.
Qed.

Lemma loop_exit_continue (total_run loop_run : Z) (summ summ5 : Summary) :
  converged loop_run summ summ5 = false ->
  total_run + loop_run <= 3000000000 ->
  loop_exit total_run loop_run summ summ5 = Continue (total_run + loop_run).
Proof.
  intros Hc H. unfold loop_exit. rewrite Hc.
  apply Z.ltb_ge in H. rewrite H. reflexivity.
Qed.

(** C8, on the code.  [total_run] is never initialised.  With a callable
    of 20 ms the first loop iteration (300 calls) lasts 6 s and does not
    converge: started from 0 the loop returns there, started from a
    negative value left on the stack it goes on to a second iteration and
    returns after 18 s. *)
Theorem budget_counts_from_garbage :
  let func := busy 20000000 in
  let m := mkMachine Bencher_new (mkWorld 0 []) in
  (exists s m',
     auto_bench 1 0 func m = Finished (s, m') /\
     time (world m') = 6020000000) /\
  auto_bench 1 (-10000000000) func m = Running /\
  (exists s m',
     auto_bench 2 (-10000000000) func m = Finished (s, m') /\
     time (world m') = 18020000000).
Proof.
  repeat split.
  - do 2 eexists. split; vm_compute; reflexivity.
  - do 2 eexists. split; vm_compute; reflexivity.
Qed.

(** ** The batch loop *)

Lemma call_loop_trace (k : nat) (func : Callable) (m : Machine)
    (seen : list Machine) :
  exists tr,
    snd (call_loop k func m seen) = seen ++ tr /\
    length tr = k /\
    (forall m0, nth_error tr 0 = Some m0 -> m0 = m) /\
    (forall ml, nth_error tr (k - 1) = Some ml ->
                fst (call_loop k func m seen) = func ml).
Proof.
  revert m seen. induction k as [|k IH]; intros m seen; simpl.
  - exists []. rewrite app_nil_r. repeat split; intros; discriminate.
  - destruct (IH (func m) (seen ++ [m])) as (tr & Etr & Hlen & Hfirst & Hlast).
    exists (m :: tr). rewrite Etr, <- app_assoc. simpl.
    repeat split.
    + congruence.
    + intros m0 H. congruence.
    + intros ml H. rewrite Nat.sub_0_r in H.
      destruct k as [|k]; simpl in *.
      * congruence.
      * rewrite Nat.sub_0_r in Hlast. apply Hlast, H.
Qed.

Lemma call_loop_nil (func : Callable) (m : Machine) (seen : list Machine) :
  call_loop 0 func m seen = (m, seen).
Proof. reflexivity. Qed.

Lemma call_loop_keeps_bytes (k : nat) (func : Callable) (m : Machine)
    (seen : list Machine) :
  keeps_bytes func ->
  bytes_ (self (fst (call_loop k func m seen))) = bytes_ (self m).
Proof.
  intros Hf. revert m seen. induction k as [|k IH]; intros m seen; simpl.
  - reflexivity.
  - rewrite IH. apply Hf.
Qed.

Lemma bench_n_trace_unfold (iterations : Z) (func : Callable) (m : Machine) :
  let r := call_loop (Z.to_nat iterations) func (batch_start iterations m) [] in
  snd (bench_n_trace iterations func m) = snd r /\
  bytes_ (self (fst (bench_n_trace iterations func m)))
    = bytes_ (self (fst r)) /\
  iterations_ (self (fst (bench_n_trace iterations func m)))
    = iterations_ (self (fst r)).
Proof.
  unfold bench_n_trace, batch_start.
  destruct (now (world m)) as [loop_start w]. simpl.
  destruct (call_loop (Z.to_nat iterations) func _ []) as [m1 seen].
  destruct (now (world m1)) as [finish w1]. simpl. repeat split.
Qed.

(** ** C7 *)

Lemma ns_per_iter_exact (b : Bencher) :
  0 < iterations_ b -> 0 <= duration_ b < 2 ^ 63 ->
  ns_per_iter b = duration_ b / iterations_ b.
Proof.
  intros Hi Hd. unfold ns_per_iter.
  assert (E : (iterations_ b =? 0) = false) by (apply Z.eqb_neq; lia).
  rewrite E. simpl negb. cbv iota.
  unfold u64, i64. rewrite (Z.mod_small (duration_ b)) by lia.
  assert (Hq0 : 0 <= duration_ b / iterations_ b)
    by (apply Z.div_pos; lia).
  assert (Hq1 : duration_ b / iterations_ b <= duration_ b).
  { apply Z.div_le_upper_bound; [lia|nia]. }
  rewrite Z.mod_small by lia. lia.
Qed.

(** C7. A batch of zero iterations never calls the callable, and
    [ns_per_iter()] is 0 after it; a batch of [iterations] calls it that
    many times.  [ns_per_iter()] is exactly 0 when the iteration count is
    0, and otherwise [duration_ / iterations_], the division being that of
    [uint64_t]: the integer quotient for a duration that is not
    negative. *)
Theorem ns_per_iter_guard (iterations : Z) (func : Callable) (m : Machine)
    (b : Bencher) :
  snd (bench_n_trace 0 func m) = [] /\
  ns_per_iter (self (bench_n 0 func m)) = 0 /\
  length (snd (bench_n_trace iterations func m)) = Z.to_nat iterations /\
  (iterations_ b = 0 -> ns_per_iter b = 0) /\
  (iterations_ b <> 0 ->
   ns_per_iter b = i64 (u64 (duration_ b) / iterations_ b)) /\
  (0 < iterations_ b -> 0 <= duration_ b < 2 ^ 63 ->
   ns_per_iter b = duration_ b / iterations_ b).
Proof.
  repeat split.
  - destruct (bench_n_trace_unfold 0 func m) as (E & _ & _).
    rewrite E. reflexivity.
  - destruct (bench_n_trace_unfold 0 func m) as (_ & _ & E).
    unfold ns_per_iter, bench_n. rewrite E. reflexivity.
  - destruct (bench_n_trace_unfold iterations func m) as (E & _ & _).
    rewrite E.
    destruct (call_loop_trace (Z.to_nat iterations) func
                (batch_start iterations m) []) as (tr & Etr & Hlen & _).
    rewrite Etr. simpl. exact Hlen.
  - intros H. unfold ns_per_iter. rewrite H. reflexivity.
  - intros H. unfold ns_per_iter. apply Z.eqb_neq in H. rewrite H. reflexivity.
  - intros Hi Hd. apply ns_per_iter_exact; assumption.
Qed.

Lemma ns_per_iter_guard_witness :
  ns_per_iter (mkBencher 0 17 0) = 0 /\
  ns_per_iter (mkBencher 5 100000000 0) = 100000000 / 5.
Proof.
  pose proof (ns_per_iter_guard 0 (busy 1)
                (mkMachine Bencher_new (mkWorld 0 []))
                (mkBencher 0 17 0)) as (_ & _ & _ & H0 & _).
  pose proof (ns_per_iter_guard 0 (busy 1)
                (mkMachine Bencher_new (mkWorld 0 []))
                (mkBencher 5 100000000 0)) as (_ & _ & _ & _ & _ & H1).
  split.
  - apply H0. reflexivity.
  - apply H1; simpl; lia.
Defined.

(** ** C9 *)

Lemma now_time (w : World) : time (snd (now w)) = fst (now w).
Proof. unfold now. destruct (drift w); reflexivity. Qed.

(** A batch, from the state in which its first call starts. *)
Lemma bench_n_trace_eq (iterations : Z) (func : Callable) (m : Machine) :
  bench_n_trace iterations func m =
    let r := call_loop (Z.to_nat iterations) func (batch_start iterations m) [] in
    (mkMachine
       (mkBencher (iterations_ (self (fst r)))
                  (fst (now (world (fst r))) - fst (now (world m)))
                  (bytes_ (self (fst r))))
       (snd (now (world (fst r)))),
     snd r).
Proof.
  unfold bench_n_trace, batch_start.
  destruct (now (world m)) as [loop_start w]. cbn [fst snd].
  destruct (call_loop (Z.to_nat iterations) func _ []) as [m1 seen].
  cbn [fst snd]. destruct (now (world m1)) as [finish w1]. reflexivity.
Qed.

Lemma call_loop_keeps_self (k : nat) (func : Callable) (m : Machine)
    (seen : list Machine) :
  (forall x, self (func x) = self x) ->
  self (fst (call_loop k func m seen)) = self m.
Proof.
  intros Hf. revert m seen. induction k as [|k IH]; intros m seen; simpl.
  - reflexivity.
  - rewrite IH. apply Hf.
Qed.

(** C9. A batch of [iterations] calls the callable that many times.  It
    starts by setting the iteration count and zeroing the duration: the
    first call finds exactly these, with the byte count of before, and
    nothing of the duration and the iteration count of before reaches the
    batch.  After the batch the duration is the last clock reading minus
    the reading taken at the start.  The byte count after the batch is
    the one the last call left, and the one of before when there was no
    call or when the callable does not write it, also over a following
    batch.  [benchmark] computes the throughput from the byte count of
    the state in which [auto_bench] returned. *)
Theorem bench_n_keeps_bytes (iterations : Z) (func : Callable) (m : Machine) :
  let seen := snd (bench_n_trace iterations func m) in
  let after := bench_n iterations func m in
  length seen = Z.to_nat iterations /\
  (0 < iterations ->
   exists first,
     nth_error seen 0 = Some first /\
     self first = mkBencher iterations 0 (bytes_ (self m))) /\
  (forall first, nth_error seen 0 = Some first ->
     iterations_ (self first) = iterations /\
     duration_ (self first) = 0 /\
     bytes_ (self first) = bytes_ (self m)) /\
  (forall m',
     bytes_ (self m') = bytes_ (self m) -> world m' = world m ->
     bench_n_trace iterations func m' = bench_n_trace iterations func m) /\
  duration_ (self after) = time (world after) - fst (now (world m)) /\
  (seen = [] ->
     iterations_ (self after) = iterations /\
     bytes_ (self after) = bytes_ (self m)) /\
  ((forall x, self (func x) = self x) ->
     iterations_ (self after) = iterations /\
     bytes_ (self after) = bytes_ (self m)) /\
  (forall final, nth_error seen (length seen - 1) = Some final ->
     bytes_ (self after) = bytes_ (self (func final))) /\
  (keeps_bytes func ->
     bytes_ (self after) = bytes_ (self m) /\
     forall n, bytes_ (self (bench_n n func after)) = bytes_ (self m)) /\
  (forall fuel garbage w bs,
     benchmark fuel garbage func w = Finished bs ->
     exists summ b1,
       auto_bench fuel garbage func (mkMachine Bencher_new w)
         = Finished (summ, b1) /\
       ns_iter_summ bs = summ /\
       throughput summ (bytes_ (self b1)) = Some (mb_s bs)) /\
  (forall fuel garbage w summ b1 mb,
     auto_bench fuel garbage func (mkMachine Bencher_new w)
       = Finished (summ, b1) ->
     throughput summ (bytes_ (self b1)) = Some mb ->
     benchmark fuel garbage func w = Finished (mkBenchSamples summ mb)).
Proof.
  intros seen after. subst seen after. unfold bench_n.
  pose proof (bench_n_trace_eq iterations func m) as Eq.
  destruct (call_loop_trace (Z.to_nat iterations) func
              (batch_start iterations m) [])
    as (tr & Etr & Hlen & Hfirst & Hlast).
  simpl in Etr.
  assert (Hkeep : forall g n x, keeps_bytes g ->
            bytes_ (self (fst (bench_n_trace n g x))) = bytes_ (self x)).
  { intros g n x Hg. rewrite bench_n_trace_eq. cbn [fst self bytes_].
    rewrite call_loop_keeps_bytes by exact Hg. reflexivity. }
  rewrite Eq. cbv zeta. cbn [fst snd self world iterations_ duration_ bytes_].
  rewrite Etr.
  split; [exact Hlen|].
  split.
  { intros Hpos. destruct tr as [|first tr'].
    - simpl in Hlen. lia.
    - exists first. split; [reflexivity|].
      rewrite (Hfirst first eq_refl). reflexivity. }
  split.
  { intros first H. apply Hfirst in H. subst first. repeat split. }
  split.
  { intros m' Hb Hw. rewrite bench_n_trace_eq.
    assert (Es : batch_start iterations m' = batch_start iterations m)
      by (unfold batch_start; rewrite Hb, Hw; reflexivity).
    rewrite Es, Hw. cbv zeta. rewrite Etr. reflexivity. }
  split; [rewrite now_time; reflexivity|].
  split.
  { intros E. rewrite E in Hlen. simpl in Hlen. rewrite <- Hlen.
    split; reflexivity. }
  split.
  { intros Hf. rewrite call_loop_keeps_self by exact Hf. split; reflexivity. }
  split.
  { intros final H. rewrite Hlen in H. rewrite (Hlast final H). reflexivity. }
  split.
  { intros Hf. split.
    - rewrite call_loop_keeps_bytes by assumption. reflexivity.
    - intros n. rewrite Hkeep by assumption.
      cbn [self bytes_]. rewrite call_loop_keeps_bytes by assumption.
      reflexivity. }
  split.
  { intros fuel garbage w bs H. unfold benchmark in H.
    destruct (auto_bench fuel garbage func (mkMachine Bencher_new w))
      as [[summ b1]| |]; try discriminate.
    unfold bytes in H.
    destruct (throughput summ (bytes_ (self b1))) as [mb|] eqn:E;
      try discriminate.
    injection H as <-. exists summ, b1. repeat split. exact E. }
  intros fuel garbage w summ b1 mb Ha Ht. unfold benchmark.
  rewrite Ha. unfold bytes. rewrite Ht. reflexivity.
Qed.

Lemma bench_n_keeps_bytes_witness :
  (exists first,
     nth_error (snd (bench_n_trace 3 (busy 7)
                       (mkMachine (mkBencher 9 9 4) (mkWorld 0 [])))) 0
       = Some first /\
     self first = mkBencher 3 0 4) /\
  (exists bs summ b1,
     benchmark 1 0 (busy 20000000) (mkWorld 0 []) = Finished bs /\
     auto_bench 1 0 (busy 20000000) (mkMachine Bencher_new (mkWorld 0 []))
       = Finished (summ, b1) /\
     throughput summ (bytes_ (self b1)) = Some (mb_s bs)).
Proof.
  split.
  - assert (H : 0 < 3) by reflexivity.
    exact (proj1 (proj2 (bench_n_keeps_bytes 3 (busy 7)
             (mkMachine (mkBencher 9 9 4) (mkWorld 0 [])))) H).
  - destruct (benchmark 1 0 (busy 20000000) (mkWorld 0 [])) as [bs| |] eqn:E;
      [|vm_compute in E; discriminate|vm_compute in E; discriminate].
    pose proof (bench_n_keeps_bytes 0 (busy 20000000)
                  (mkMachine Bencher_new (mkWorld 0 []))) as H.
    cbv zeta in H.
    destruct H as (_ & _ & _ & _ & _ & _ & _ & _ & _ & Hread & _).
    destruct (Hread 1%nat 0 (mkWorld 0 []) bs E) as (summ & b1 & Ha & _ & Ht).
    exists bs, summ, b1. repeat split; assumption.
Defined.

(** ** C4 *)

Lemma double_to_u64_floor (x : Q) :
  (0 <= x)%Q -> (x < inject_Z (2 ^ 64))%Q ->
  double_to_u64 x = Some (Qfloor x) /\ 0 <= Qfloor x < 2 ^ 64.
Proof.
  intros H0 H1.
  assert (Hf0 : 0 <= Qfloor x).
  { change 0 with (Qfloor 0%Q). apply Qfloor_resp_le, H0. }
  assert (Hf1 : Qfloor x < 2 ^ 64).
  { rewrite Zlt_Qlt. pose proof (Qfloor_le x). lra. }
  split; [|lia].
  unfold double_to_u64.
  assert (E : Z.quot (Qnum x) (Z.pos (Qden x)) = Qfloor x).
  { destruct x as [n d]. simpl.
    apply Z.quot_div_nonneg; [|lia].
    unfold Qle in H0. simpl in H0. lia. }
  rewrite E.
  assert (E0 : (0 <=? Qfloor x) = true) by (apply Z.leb_le; lia).
  assert (E1 : (Qfloor x <? 2 ^ 64) = true) by (apply Z.ltb_lt; lia).
  rewrite E0, E1. reflexivity.
Qed.

(** C4, as the code has it.  The median is converted to [uint64_t]
    before the maximum is taken, and the quotients are integer quotients:
    for the samples 1 and 2 the median is 1.5, which the code truncates to
    1, so 3 bytes give 3000 where the stated formula gives 2000. *)
Lemma throughput_truncates_median :
  exists s,
    Summary_of [1%Q; 2%Q] = Some s /\
    (median s == 3 # 2)%Q /\
    throughput s 3 = Some 3000 /\
    (throughput_stated (median s) 3 == 2000)%Q /\
    ~ (forall mb, throughput s 3 = Some mb ->
                  (inject_Z mb == throughput_stated (median s) 3)%Q).
Proof.
  eexists. split; [vm_compute; reflexivity|].
  split; [reflexivity|]. split; [reflexivity|]. split; [reflexivity|].
  intros H. specialize (H 3000 eq_refl). vm_compute in H. discriminate.
Qed.

(** C4, amended.  For a median that converts to [uint64_t], [benchmark]
    computes [ns_iter = max(median, 1)] on the median truncated to an
    integer, [iter_s = 1000000000 / ns_iter] and
    [mb_s = (bytes * iter_s) / 1000000] in [uint64_t] arithmetic: the
    divisions are integer divisions and the divisor is at least 1; the
    product does not wrap while [bytes * 1000000000] fits.  For a median
    of 1000 and 2000 bytes the result is 2000. *)
Theorem throughput_formula (summ : Summary) (bytes : Z) :
  (0 <= median summ)%Q -> (median summ < inject_Z (2 ^ 64))%Q ->
  let ns_iter := Z.max (Qfloor (median summ)) 1 in
  let iter_s := 1000000000 / ns_iter in
  1 <= ns_iter /\
  throughput summ bytes = Some (u64 (bytes * iter_s) / 1000000) /\
  (0 <= bytes -> bytes * 1000000000 < 2 ^ 64 ->
   throughput summ bytes = Some ((bytes * iter_s) / 1000000)) /\
  throughput (mkSummary 1000 1000 1000 0 (Finite 0)) 2000 = Some 2000.
Proof.
  intros H0 H1 ns_iter iter_s.
  destruct (double_to_u64_floor (median summ) H0 H1) as [E Hr].
  assert (Hns : 1 <= ns_iter) by (unfold ns_iter; lia).
  assert (Ht : throughput summ bytes = Some (u64 (bytes * iter_s) / 1000000)).
  { unfold throughput. rewrite E. reflexivity. }
  repeat split; try assumption.
  intros Hb0 Hb1. rewrite Ht. f_equal. f_equal.
  assert (Hi0 : 0 <= iter_s) by (apply Z.div_pos; lia).
  assert (Hi1 : iter_s <= 1000000000).
  { apply Z.div_le_upper_bound; lia. }
  unfold u64. apply Z.mod_small. nia.
Qed.

Lemma throughput_formula_witness :
  throughput (mkSummary 3 3 3 0 (Finite 0)) 1 = Some 333.
Proof.
  assert (H0 : (0 <= median (mkSummary 3 3 3 0 (Finite 0)))%Q)
    by (unfold Qle; simpl; lia).
  assert (H1 : (median (mkSummary 3 3 3 0 (Finite 0)) < inject_Z (2 ^ 64))%Q)
    by reflexivity.
  destruct (throughput_formula (mkSummary 3 3 3 0 (Finite 0)) 1 H0 H1)
    as (_ & _ & H & _).
  rewrite H; [reflexivity|lia|reflexivity].
Defined.

(** * Further properties of the code *)

Open Scope Q_scope.

(** ** When the percentile and [winsorize] return *)

Lemma percentile_total (s : list Q) (pct : Q) :
  s <> [] -> 0 <= pct -> pct <= 100 ->
  exists v, percentile_of_sorted s pct = Some v.
Proof.
  intros Hne Hp0 Hp1.
  destruct (le_lt_dec 2 (length s)) as [Hlen|Hlen].
  2:{ destruct s as [|x [|y t]]; simpl in *; try lia; try congruence.
      exists x. reflexivity. }
  destruct (Qlt_le_dec pct 100) as [Hlt|Hge].
  - destruct (percentile_interp s pct Hlen Hp0 Hlt) as (lo & hi & _ & _ & E).
    eexists. exact E.
  - rewrite (percentile_last s pct Hlen) by lra.
    apply nth_error_in_range. lia.
Qed.

Lemma percentile_asserts (s : list Q) (pct v : Q) :
  (2 <= length s)%nat -> percentile_of_sorted s pct = Some v ->
  0 <= pct /\ pct <= 100.
Proof.
  intros Hlen H. rewrite percentile_unfold in H by assumption.
  destruct (Qle_bool 0 pct) eqn:E0; simpl in H; [|discriminate].
  destruct (Qle_bool pct hundred) eqn:E1; simpl in H; [|discriminate].
  apply Qle_bool_iff in E0, E1. unfold hundred in E1. split; assumption.
Qed.

(** X1. [percentile_of_sorted] returns exactly on a non-empty vector that has
    one element or is asked a percentile between 0 and 100; it never reads
    outside the vector.  Whether the vector is sorted plays no part. *)
Theorem percentile_returns_iff (s : list Q) (pct : Q) :
  (exists v, percentile_of_sorted s pct = Some v) <->
  s <> [] /\ (length s = 1%nat \/ (0 <= pct /\ pct <= 100)).
Proof.
  split.
  - intros [v Hv]. split.
    + intros ->. discriminate.
    + destruct (le_lt_dec 2 (length s)) as [Hlen|Hlen].
      * right. apply (percentile_asserts s pct v); assumption.
      * left. destruct s as [|x [|y t]]; simpl in *; try lia. discriminate.
  - intros [Hne [Hone|[Hp0 Hp1]]].
    + destruct s as [|x [|y t]]; simpl in *; try lia; try congruence.
      exists x. reflexivity.
    + apply percentile_total; assumption.
Qed.

(** X2. [winsorize] returns exactly on a non-empty vector that has one element
    or is given a percentile between 0 and 100, and the vector it leaves
    has the size of the one it was given. *)
Theorem winsorize_returns_iff (samples : list Q) (pct : Q) :
  ((exists w, winsorize samples pct = Some w) <->
   samples <> [] /\ (length samples = 1%nat \/ (0 <= pct /\ pct <= 100))) /\
  (forall w, winsorize samples pct = Some w -> length w = length samples).
Proof.
  split; [split|].
  - intros [w Hw]. unfold winsorize in Hw.
    destruct (percentile_of_sorted (sort samples) pct) as [lo|] eqn:Elo;
      [|discriminate].
    assert (H : exists v, percentile_of_sorted (sort samples) pct = Some v)
      by (exists lo; exact Elo).
    apply percentile_returns_iff in H. rewrite sort_length in H.
    destruct H as [Hne H]. split; [|exact H].
    intros ->. apply Hne. reflexivity.
  - intros [Hne H]. unfold winsorize.
    pose proof (sort_nonempty samples Hne) as Hne'.
    assert (Hlo : exists v, percentile_of_sorted (sort samples) pct = Some v).
    { apply percentile_returns_iff. rewrite sort_length. split; assumption. }
    assert (Hhi : exists v,
               percentile_of_sorted (sort samples) (100 - pct) = Some v).
    { apply percentile_returns_iff. rewrite sort_length.
      split; [assumption|]. destruct H as [H|[H0 H1]]; [left; exact H|].
      right. split; lra. }
    destruct Hlo as [lo Elo]. destruct Hhi as [hi Ehi].
    rewrite Elo, Ehi. eexists. reflexivity.
  - intros w Hw. unfold winsorize in Hw.
    destruct (percentile_of_sorted (sort samples) pct) as [lo|];
      [|discriminate].
    destruct (percentile_of_sorted (sort samples) (100 - pct)) as [hi|];
      [|discriminate].
    injection Hw as <-. rewrite length_map. apply sort_length.
Qed.

(** ** The vector left by [winsorize] *)

(** X3. For a percentile between 0 and 50 the vector left by [winsorize] is
    ascending and all its values lie between the two bounds. *)
Theorem winsorize_ascending (samples : list Q) (pct : Q) :
  samples <> [] -> 0 <= pct -> pct <= 50 ->
  exists lo hi w,
    percentile_of_sorted (sort samples) pct = Some lo /\
    percentile_of_sorted (sort samples) (100 - pct) = Some hi /\
    winsorize samples pct = Some w /\
    StronglySorted Qle w /\
    Forall (fun y => lo <= y /\ y <= hi) w.
Proof.
  intros Hne Hp0 Hp1.
  destruct (winsorize_bounds samples pct Hne Hp0 Hp1)
    as (lo & hi & Elo & Ehi & Hlh).
  exists lo, hi, (map (clamp lo hi) (sort samples)).
  unfold winsorize. rewrite Elo, Ehi. repeat split; try reflexivity.
  - apply map_sorted; [|apply sort_sorted].
    intros x y. apply clamp_mono, Hlh.
  - apply Forall_forall. intros y Hy. apply in_map_iff in Hy.
    destruct Hy as (x & <- & _). apply clamp_range, Hlh.
Qed.

Lemma winsorize_ascending_witness :
  exists w, winsorize [0; 10; 20] 25 = Some w /\ StronglySorted Qle w.
Proof.
  assert (Hne : [0; 10; 20] <> []) by discriminate.
  assert (H0 : 0 <= 25) by (unfold Qle; simpl; lia).
  assert (H1 : 25 <= 50) by (unfold Qle; simpl; lia).
  destruct (winsorize_ascending [0; 10; 20] 25 Hne H0 H1)
    as (lo & hi & w & _ & _ & Ew & Hs & _).
  exists w. split; assumption.
Defined.

(** X4. For a percentile between 50 and 100 the bounds are the other way
    round, [hi <= lo], and [winsorize] leaves only these two values: every
    sample above [hi] becomes [hi] and every other one becomes [lo].  At 50
    percent every sample becomes the median. *)
Theorem winsorize_inverted (samples : list Q) (pct : Q) :
  samples <> [] -> 50 <= pct -> pct <= 100 ->
  exists lo hi w,
    percentile_of_sorted (sort samples) pct = Some lo /\
    percentile_of_sorted (sort samples) (100 - pct) = Some hi /\
    hi <= lo /\
    winsorize samples pct = Some w /\
    Forall2 (fun x y => (hi < x -> y = hi) /\ (x <= hi -> y == lo))
      (sort samples) w.
Proof.
  intros Hne Hp0 Hp1.
  pose proof (sort_nonempty samples Hne) as Hne'.
  destruct (percentile_total (sort samples) pct Hne') as [lo Elo];
    [lra|lra|].
  destruct (percentile_total (sort samples) (100 - pct) Hne') as [hi Ehi];
    [lra|lra|].
  assert (Hhl : hi <= lo).
  { apply (percentile_mono (sort samples) (100 - pct) pct hi lo);
      try assumption; try lra. apply sort_sorted. }
  exists lo, hi, (map (clamp lo hi) (sort samples)).
  unfold winsorize. rewrite Elo, Ehi. repeat split; try assumption.
  apply Forall2_map_graph. intros x. unfold clamp.
  destruct (Qlt_bool hi x) eqn:E1.
  - apply Qlt_bool_iff in E1. split; [reflexivity|]. intros H. lra.
  - apply Qlt_bool_false in E1. split; [intros H; lra|]. intros _.
    destruct (Qlt_bool x lo) eqn:E2; [reflexivity|].
    apply Qlt_bool_false in E2. lra.
Qed.

Lemma winsorize_inverted_witness :
  exists w, winsorize [0; 10; 20] 75 = Some w /\ same_values w [15; 5; 5].
Proof.
  assert (Hne : [0; 10; 20] <> []) by discriminate.
  assert (H0 : 50 <= 75) by (unfold Qle; simpl; lia).
  assert (H1 : 75 <= 100) by (unfold Qle; simpl; lia).
  destruct (winsorize_inverted [0; 10; 20] 75 Hne H0 H1)
    as (lo & hi & w & _ & _ & _ & Ew & _).
  exists w. split; [exact Ew|].
  vm_compute in Ew. injection Ew as <-. repeat constructor.
Defined.

(** ** The summary of a vector *)

Lemma fold_max_spec (l : list Q) (x : Q) :
  let m := fold_left (fun largest v => if Qlt_bool largest v then v else largest) l x in
  In m (x :: l) /\ x <= m /\ Forall (fun y => y <= m) l.
Proof.
  revert x. induction l as [|y l IH]; intros x; simpl.
  - repeat split; [left; reflexivity|apply Qle_refl|constructor].
  - destruct (Qlt_bool x y) eqn:E.
    + apply Qlt_bool_iff in E.
      destruct (IH y) as (Hin & Hle & Hall). simpl in Hin.
      repeat split; [tauto|lra|constructor; assumption].
    + apply Qlt_bool_false in E.
      destruct (IH x) as (Hin & Hle & Hall). simpl in Hin.
      repeat split; [tauto|assumption|constructor; [lra|assumption]].
Qed.

Lemma fold_min_spec (l : list Q) (x : Q) :
  let m := fold_left (fun smallest v => if Qlt_bool v smallest then v else smallest) l x in
  In m (x :: l) /\ m <= x /\ Forall (fun y => m <= y) l.
Proof.
  revert x. induction l as [|y l IH]; intros x; simpl.
  - repeat split; [left; reflexivity|apply Qle_refl|constructor].
  - destruct (Qlt_bool y x) eqn:E.
    + apply Qlt_bool_iff in E.
      destruct (IH y) as (Hin & Hle & Hall). simpl in Hin.
      repeat split; [tauto|lra|constructor; assumption].
    + apply Qlt_bool_false in E.
      destruct (IH x) as (Hin & Hle & Hall). simpl in Hin.
      repeat split; [tauto|assumption|constructor; [lra|assumption]].
Qed.

Lemma calc_median_total (samples : list Q) :
  samples <> [] -> exists m, calc_median samples = Some m.
Proof.
  intros Hne. unfold calc_median, calc_percentile.
  apply percentile_total; [apply sort_nonempty, Hne|lra|lra].
Qed.

Lemma calc_median_abs_dev_total (samples : list Q) :
  samples <> [] -> exists d, calc_median_abs_dev samples = Some d.
Proof.
  intros Hne. unfold calc_median_abs_dev.
  destruct (calc_median_total samples Hne) as [m Em]. rewrite Em.
  destruct (calc_median_total (map (fun v => m - v) samples)) as [m' Em'].
  - destruct samples; [congruence|discriminate].
  - rewrite Em'. eexists. reflexivity.
Qed.

(** The members of a summary, from the helpers that compute them. *)
Lemma Summary_of_members (samples : list Q) :
  samples <> [] ->
  exists s,
    Summary_of samples = Some s /\
    calc_max samples = Some (max s) /\
    calc_min samples = Some (min s) /\
    calc_median samples = Some (median s) /\
    calc_median_abs_dev samples = Some (median_abs_dev s) /\
    median_abs_dev_pct s = divide (100 * median_abs_dev s) (median s).
Proof.
  intros Hne. unfold Summary_of.
  destruct (calc_median_total samples Hne) as [m Em].
  destruct (calc_median_abs_dev_total samples Hne) as [d Ed].
  destruct samples as [|x l]; [congruence|].
  unfold calc_max, calc_min. rewrite Em, Ed.
  eexists. repeat split.
Qed.

(** X6. The summary of a non-empty vector exists; its [max] and [min] are
    samples of the vector that bound every sample, and its [median] lies
    between them. *)
Theorem summary_bounds (samples : list Q) :
  samples <> [] ->
  exists s,
    Summary_of samples = Some s /\
    In (max s) samples /\ In (min s) samples /\
    Forall (fun x => min s <= x /\ x <= max s) samples /\
    min s <= median s /\ median s <= max s.
Proof.
  intros Hne.
  destruct (Summary_of_members samples Hne)
    as (s & Es & Emax & Emin & Emed & _ & _).
  exists s. split; [exact Es|].
  assert (Hb : In (max s) samples /\ In (min s) samples /\
               Forall (fun x => min s <= x /\ x <= max s) samples).
  { destruct samples as [|x l]; [congruence|].
    unfold calc_max in Emax. unfold calc_min in Emin.
    apply (f_equal (fun o => match o with Some v => v | None => x end)) in Emax.
    apply (f_equal (fun o => match o with Some v => v | None => x end)) in Emin.
    cbv beta iota in Emax, Emin. rewrite <- Emax, <- Emin.
    destruct (fold_max_spec l x) as (H1 & H2 & H3).
    destruct (fold_min_spec l x) as (H4 & H5 & H6).
    split; [exact H1|]. split; [exact H4|].
    constructor; [split; assumption|].
    rewrite Forall_forall in H3, H6. apply Forall_forall. intros y Hy.
    split; [apply H6, Hy|apply H3, Hy]. }
  destruct Hb as (H1 & H2 & H3). repeat split; try assumption.
  - unfold calc_median, calc_percentile in Emed.
    destruct (percentile_bounds (sort samples) 50)
      as (v & first & final & Ev & Hfirst & _ & Hle & _);
      [apply sort_nonempty, Hne|apply sort_sorted|lra|lra|].
    rewrite Ev in Emed. apply Some_eq in Emed. subst v.
    apply nth_error_In in Hfirst.
    apply (Permutation_in _ (Permutation_sym (sort_perm samples))) in Hfirst.
    rewrite Forall_forall in H3. destruct (H3 first Hfirst). lra.
  - unfold calc_median, calc_percentile in Emed.
    destruct (percentile_bounds (sort samples) 50)
      as (v & first & final & Ev & _ & Hfinal & _ & Hle);
      [apply sort_nonempty, Hne|apply sort_sorted|lra|lra|].
    rewrite Ev in Emed. apply Some_eq in Emed. subst v.
    apply nth_error_In in Hfinal.
    apply (Permutation_in _ (Permutation_sym (sort_perm samples))) in Hfinal.
    rewrite Forall_forall in H3. destruct (H3 final Hfinal). lra.
Qed.

Lemma summary_bounds_witness :
  exists s, Summary_of [3; 1; 2] = Some s /\ min s <= median s <= max s.
Proof.
  assert (Hne : [3; 1; 2] <> []) by discriminate.
  destruct (summary_bounds [3; 1; 2] Hne) as (s & Es & _ & _ & _ & H1 & H2).
  exists s. repeat split; assumption.
Defined.

(** ** Ascending vectors with the same samples *)

Lemma count_le_perm (q : Q) (a b : list Q) :
  Permutation a b -> count_le q a = count_le q b.
Proof.
  unfold count_le. intros H.
  induction H as [|x a b H IH|x y a|a b c H1 IH1 H2 IH2]; simpl.
  - reflexivity.
  - destruct (Qle_bool x q); simpl; congruence.
  - destruct (Qle_bool x q); destruct (Qle_bool y q); reflexivity.
  - congruence.
Qed.

Lemma count_le_above (q : Q) (l : list Q) :
  Forall (fun z => q < z) l -> count_le q l = 0%nat.
Proof.
  unfold count_le. intros H. induction H as [|z l Hz Hl IH]; simpl.
  - reflexivity.
  - apply Qle_bool_false in Hz. rewrite Hz. exact IH.
Qed.

Lemma count_le_head (x : Q) (l : list Q) :
  exists n, count_le x (x :: l) = S n.
Proof.
  unfold count_le. simpl.
  assert (E : Qle_bool x x = true) by (apply Qle_bool_iff, Qle_refl).
  rewrite E. simpl. eexists. reflexivity.
Qed.

Lemma sorted_head_least (x y : Q) (l : list Q) :
  StronglySorted Qle (y :: l) -> x < y -> Forall (fun z => x < z) (y :: l).
Proof.
  intros Hs Hxy. apply StronglySorted_inv in Hs. destruct Hs as [_ Hy].
  constructor; [assumption|].
  eapply Forall_impl; [|exact Hy]. intros z Hz. simpl in Hz. lra.
Qed.

Lemma Qle_bool_compat (x y q : Q) : x == y -> Qle_bool x q = Qle_bool y q.
Proof.
  intros E. destruct (Qle_bool x q) eqn:Ex; destruct (Qle_bool y q) eqn:Ey;
    try reflexivity.
  - apply Qle_bool_iff in Ex. apply Qle_bool_false in Ey. lra.
  - apply Qle_bool_iff in Ey. apply Qle_bool_false in Ex. lra.
Qed.

(** Two ascending vectors with the same counts of samples below every
    threshold hold the same values, position by position. *)
Lemma sorted_unique (a b : list Q) :
  StronglySorted Qle a -> StronglySorted Qle b ->
  (forall q, count_le q a = count_le q b) ->
  same_values a b.
Proof.
  unfold same_values. revert b.
  induction a as [|x a IH]; intros b Ha Hb Hc.
  - destruct b as [|y b]; [constructor|].
    specialize (Hc y). destruct (count_le_head y b) as [n En].
    rewrite En in Hc. discriminate.
  - destruct b as [|y b].
    + specialize (Hc x). destruct (count_le_head x a) as [n En].
      rewrite En in Hc. discriminate.
    + assert (Exy : x == y).
      { destruct (Qlt_le_dec x y) as [Hlt|Hge].
        - pose proof (Hc x) as H. destruct (count_le_head x a) as [n En].
          rewrite En in H.
          rewrite (count_le_above x (y :: b)) in H; [discriminate|].
          apply sorted_head_least; assumption.
        - destruct (Qlt_le_dec y x) as [Hlt|Hge']; [|lra].
          pose proof (Hc y) as H. destruct (count_le_head y b) as [n En].
          rewrite En in H.
          rewrite (count_le_above y (x :: a)) in H; [discriminate|].
          apply sorted_head_least; assumption. }
      constructor; [exact Exy|].
      apply StronglySorted_inv in Ha. apply StronglySorted_inv in Hb.
      apply IH; [tauto|tauto|].
      intros q. specialize (Hc q). unfold count_le in *. simpl in Hc.
      rewrite (Qle_bool_compat x y q Exy) in Hc.
      destruct (Qle_bool y q); simpl in Hc; congruence.
Qed.

Lemma Forall2_nth (R : Q -> Q -> Prop) (a b : list Q) (i : nat) (x : Q) :
  Forall2 R a b -> nth_error a i = Some x ->
  exists y, nth_error b i = Some y /\ R x y.
Proof.
  intros H. revert i. induction H as [|u v a b Huv H IH]; intros i Hi.
  - destruct i; discriminate.
  - destruct i as [|i]; simpl in *.
    + injection Hi as <-. exists v. split; [reflexivity|assumption].
    + apply IH, Hi.
Qed.

(** The percentile depends on the values of the samples only. *)
Lemma percentile_compat (a b : list Q) (pct v : Q) :
  same_values a b -> 0 <= pct -> pct <= 100 ->
  percentile_of_sorted a pct = Some v ->
  exists v', percentile_of_sorted b pct = Some v' /\ v' == v.
Proof.
  intros Hab Hp0 Hp1 Hv.
  pose proof (Forall2_length Hab) as Hlen.
  destruct (le_lt_dec 2 (length a)) as [Ha|Ha].
  2:{ destruct Hab as [|x y a b Hxy Hab]; [discriminate|].
      destruct Hab as [|x' y' a b Hxy' Hab]; [|simpl in Ha; lia].
      simpl in Hv. injection Hv as <-. exists y. split; [reflexivity|].
      symmetry. exact Hxy. }
  assert (Hb : (2 <= length b)%nat) by lia.
  destruct (Qlt_le_dec pct 100) as [Hlt|Hge].
  - destruct (percentile_interp a pct Ha Hp0 Hlt) as (lo & hi & Hlo & Hhi & E).
    destruct (percentile_interp b pct Hb Hp0 Hlt)
      as (lo' & hi' & Hlo' & Hhi' & E').
    rewrite E in Hv. apply Some_eq in Hv. subst v.
    rewrite <- Hlen in Hlo', Hhi', E'.
    destruct (Forall2_nth Qeq a b _ lo Hab Hlo) as (y & Hy & Ely).
    destruct (Forall2_nth Qeq a b _ hi Hab Hhi) as (z & Hz & Ehz).
    assert (y = lo') by congruence. assert (z = hi') by congruence. subst y z.
    eexists. split; [exact E'|].
    rewrite <- Ely, <- Ehz. reflexivity.
  - assert (E100 : pct == 100) by lra.
    rewrite (percentile_last a pct Ha E100) in Hv.
    rewrite (percentile_last b pct Hb E100).
    destruct (Forall2_nth Qeq a b _ v Hab Hv) as (y & Hy & Evy).
    rewrite <- Hlen. exists y. split; [exact Hy|]. symmetry. exact Evy.
Qed.

Lemma sorted_snoc (l : list Q) (z : Q) :
  StronglySorted Qle l -> Forall (fun y => y <= z) l ->
  StronglySorted Qle (l ++ [z]).
Proof.
  intros Hs Hz. induction Hs as [|x l Hs IH Hx]; simpl.
  - constructor; constructor.
  - apply Forall_cons_iff in Hz. destruct Hz as [Hxz Hz].
    constructor; [apply IH, Hz|].
    apply Forall_app. split; [exact Hx|]. constructor; [exact Hxz|constructor].
Qed.

(** Reversing an ascending vector under a decreasing map gives an
    ascending vector. *)
Lemma rev_map_sorted (f : Q -> Q) (s : list Q) :
  (forall x y, x <= y -> f y <= f x) ->
  StronglySorted Qle s -> StronglySorted Qle (rev (map f s)).
Proof.
  intros Hf Hs. induction Hs as [|x l Hs IH Hx]; simpl; [constructor|].
  apply sorted_snoc; [exact IH|].
  apply Forall_forall. intros y Hy. apply in_rev in Hy.
  apply in_map_iff in Hy. destruct Hy as (z & <- & Hz).
  rewrite Forall_forall in Hx. apply Hf, Hx, Hz.
Qed.

(** ** The median of the deviations *)

Lemma floor_half (z : Z) : Qfloor (inject_Z z + (1 # 2)) = z.
Proof.
  pose proof (Qfloor_le (inject_Z z + (1 # 2))) as H1.
  pose proof (Qlt_floor (inject_Z z + (1 # 2))) as H2.
  set (f := Qfloor (inject_Z z + (1 # 2))) in *.
  rewrite inject_Z_plus in H2. change (inject_Z 1) with 1 in H2.
  assert (Hlo : (f < z + 1)%Z).
  { rewrite Zlt_Qlt, inject_Z_plus. change (inject_Z 1) with 1. lra. }
  assert (Hhi : (z < f + 1)%Z).
  { rewrite Zlt_Qlt, inject_Z_plus. change (inject_Z 1) with 1. lra. }
  lia.
Qed.

(** The rank of the median in a vector of [2j + 1] and of [2j + 2]
    samples. *)
Lemma median_rank_odd (j : nat) :
  rank (2 * j + 1) 50 == inject_Z (Z.of_nat j).
Proof.
  unfold rank, hundred.
  replace (2 * j + 1 - 1)%nat with (2 * j)%nat by lia.
  rewrite Nat2Z.inj_mul, inject_Z_mult. change (inject_Z (Z.of_nat 2)) with 2.
  field.
Qed.

Lemma median_rank_even (j : nat) :
  rank (2 * j + 2) 50 == inject_Z (Z.of_nat j) + (1 # 2).
Proof.
  unfold rank, hundred.
  replace (2 * j + 2 - 1)%nat with (2 * j + 1)%nat by lia.
  rewrite Nat2Z.inj_add, Nat2Z.inj_mul, inject_Z_plus, inject_Z_mult.
  change (inject_Z (Z.of_nat 2)) with 2. change (inject_Z (Z.of_nat 1)) with 1.
  field.
Qed.

Lemma nth_error_rev_map (f : Q -> Q) (s : list Q) (i : nat) (x : Q) :
  (i < length s)%nat ->
  nth_error s (length s - S i) = Some x ->
  nth_error (rev (map f s)) i = Some (f x).
Proof.
  intros Hi Hx. rewrite nth_error_rev, length_map.
  apply Nat.ltb_lt in Hi. rewrite Hi.
  apply map_nth_error, Hx.
Qed.

(** The median of the vector read backwards through [x |-> m - x] is
    [m] minus the median of the vector. *)
Lemma median_reflect (s : list Q) (m v : Q) :
  percentile_of_sorted s 50 = Some v ->
  exists v',
    percentile_of_sorted (rev (map (fun x => m - x) s)) 50 = Some v' /\
    v' == m - v.
Proof.
  intros Hv.
  destruct (le_lt_dec 2 (length s)) as [Hlen|Hlen].
  2:{ destruct s as [|x [|y t]]; simpl in *; try lia; try discriminate.
      injection Hv as <-. exists (m - x). split; reflexivity. }
  set (f := fun x => m - x).
  assert (Hlen' : length (rev (map f s)) = length s)
    by (rewrite length_rev, length_map; reflexivity).
  assert (H0 : 0 <= 50) by lra. assert (H1 : 50 < 100) by lra.
  destruct (percentile_interp s 50 Hlen H0 H1) as (lo & hi & Hlo & Hhi & E).
  rewrite E in Hv. apply Some_eq in Hv. subst v.
  assert (Hlen2 : (2 <= length (rev (map f s)))%nat) by lia.
  destruct (percentile_interp (rev (map f s)) 50 Hlen2 H0 H1)
    as (lo' & hi' & Hlo' & Hhi' & E').
  rewrite Hlen' in Hlo', Hhi', E'. rewrite E'. eexists. split; [reflexivity|].
  destruct (Nat.Even_or_Odd (length s)) as [[j Hj]|[j Hj]].
  - (* an even number of samples: the median is half way *)
    destruct j as [|j]; [lia|].
    assert (Hr : rank (length s) 50 == inject_Z (Z.of_nat j) + (1 # 2)).
    { rewrite Hj. replace (2 * S j)%nat with (2 * j + 2)%nat by lia.
      apply median_rank_even. }
    assert (Hf : Qfloor (rank (length s) 50) = Z.of_nat j)
      by (rewrite (Qfloor_comp _ _ Hr); apply floor_half).
    assert (Hb : below (length s) 50 = j)
      by (unfold below; rewrite Hf; apply Nat2Z.id).
    rewrite Hb in *.
    assert (Elo' : lo' = f hi).
    { apply Some_eq. rewrite <- Hlo'. apply nth_error_rev_map; [lia|].
      replace (length s - S j)%nat with (j + 1)%nat by lia. exact Hhi. }
    assert (Ehi' : hi' = f lo).
    { apply Some_eq. rewrite <- Hhi'. apply nth_error_rev_map; [lia|].
      replace (length s - S (j + 1))%nat with j by lia. exact Hlo. }
    subst lo' hi'. unfold f. rewrite Hf, Hr. ring.
  - (* an odd number of samples: the median is the middle one *)
    assert (Hr : rank (length s) 50 == inject_Z (Z.of_nat j)).
    { rewrite Hj. apply median_rank_odd. }
    assert (Hf : Qfloor (rank (length s) 50) = Z.of_nat j)
      by (rewrite (Qfloor_comp _ _ Hr); apply Qfloor_Z).
    assert (Hb : below (length s) 50 = j)
      by (unfold below; rewrite Hf; apply Nat2Z.id).
    rewrite Hb in *.
    assert (Elo' : lo' = f lo).
    { apply Some_eq. rewrite <- Hlo'. apply nth_error_rev_map; [lia|].
      replace (length s - S j)%nat with j by lia. exact Hlo. }
    subst lo'. unfold f. rewrite Hf, Hr. ring.
Qed.

(** [calc_median_abs_dev] takes the median of the signed deviations
    [med - v]; that median is [med] minus the median, so the result is 0
    for every vector. *)
Lemma calc_median_abs_dev_zero (samples : list Q) :
  samples <> [] ->
  exists d, calc_median_abs_dev samples = Some d /\ d == 0.
Proof.
  intros Hne. unfold calc_median_abs_dev.
  destruct (calc_median_total samples Hne) as [m Em]. rewrite Em.
  unfold calc_median, calc_percentile in *.
  set (f := fun v => m - v).
  destruct (median_reflect (sort samples) m m Em) as (v' & Ev' & Hv').
  fold f in Ev'.
  assert (Hsame : same_values (rev (map f (sort samples)))
                              (sort (map f samples))).
  { apply sorted_unique.
    - apply rev_map_sorted; [|apply sort_sorted].
      intros x y Hxy. unfold f. lra.
    - apply sort_sorted.
    - intros q. apply count_le_perm.
      eapply perm_trans; [apply Permutation_sym, Permutation_rev|].
      eapply perm_trans; [|apply sort_perm].
      apply Permutation_map, Permutation_sym, sort_perm. }
  destruct (percentile_compat _ _ 50 v' Hsame) as (d & Ed & Hd);
    [lra|lra|exact Ev'|].
  rewrite Ed. exists (d * scale). split; [reflexivity|].
  rewrite Hd, Hv'. ring.
Qed.

Lemma divide_zero (a b : Q) :
  a == 0 ->
  (~ b == 0 -> ratio_is (divide a b) 0 /\ ratio_lt (divide a b) 1 = true) /\
  (b == 0 -> divide a b = NaN).
Proof.
  intros Ha. unfold divide. split.
  - intros Hb. apply Qeq_bool_false in Hb. rewrite Hb. simpl.
    assert (E : a / b == 0) by (rewrite Ha; unfold Qdiv; ring).
    split; [exact E|]. apply Qlt_bool_iff. lra.
  - intros Hb. apply Qeq_bool_iff in Hb. rewrite Hb.
    assert (E1 : Qlt_bool 0 a = false) by (apply Qlt_bool_false; lra).
    assert (E2 : Qlt_bool a 0 = false) by (apply Qlt_bool_false; lra).
    rewrite E1, E2. reflexivity.
Qed.

Lemma Summary_of_nonempty (samples : list Q) (s : Summary) :
  Summary_of samples = Some s -> samples <> [].
Proof.
  intros H ->. discriminate.
Qed.

Lemma Summary_of_deviation (samples : list Q) (s : Summary) :
  Summary_of samples = Some s ->
  median_abs_dev s == 0 /\
  median_abs_dev_pct s = divide (100 * median_abs_dev s) (median s).
Proof.
  intros Hs. pose proof (Summary_of_nonempty samples s Hs) as Hne.
  destruct (Summary_of_members samples Hne)
    as (s' & Es' & _ & _ & _ & Ed & Ep).
  assert (s' = s) by congruence. subst s'.
  destruct (calc_median_abs_dev_zero samples Hne) as (d & Ed' & Hd).
  rewrite Ed in Ed'. apply Some_eq in Ed'.
  split; [rewrite Ed'; exact Hd|exact Ep].
Qed.

(** X8. Every summary has [median_abs_dev == 0]: the deviations [med - v] are
    taken with their sign, and their median is always 0.  So
    [median_abs_dev_pct] is 0 when the median is not 0, and NaN when it
    is. *)
Theorem summary_deviation_zero (samples : list Q) :
  samples <> [] ->
  exists s,
    Summary_of samples = Some s /\
    median_abs_dev s == 0 /\
    (~ median s == 0 -> ratio_is (median_abs_dev_pct s) 0) /\
    (median s == 0 -> median_abs_dev_pct s = NaN).
Proof.
  intros Hne.
  destruct (Summary_of_members samples Hne) as (s & Es & _).
  destruct (Summary_of_deviation samples s Es) as [Hd Ep].
  exists s. split; [exact Es|]. split; [exact Hd|].
  rewrite Ep.
  assert (Ha : 100 * median_abs_dev s == 0) by (rewrite Hd; ring).
  destruct (divide_zero _ (median s) Ha) as [H1 H2].
  split; [|exact H2]. intros Hm. apply H1, Hm.
Qed.

Lemma summary_deviation_zero_witness :
  exists s, Summary_of [1; 2; 10; 50] = Some s /\ median_abs_dev s == 0.
Proof.
  assert (Hne : [1; 2; 10; 50] <> []) by discriminate.
  destruct (summary_deviation_zero [1; 2; 10; 50] Hne) as (s & Es & Hd & _).
  exists s. split; assumption.
Defined.

(** X9. On summaries computed from samples the convergence test of
    [auto_bench] passes exactly when the iteration took more than 100 ms,
    the median at [n] is not 0, and it is strictly below the median at
    [5n]: the spread of the samples plays no part, and two equal medians
    never pass. *)
Theorem converged_on_summaries (loop_run : Z) (samples samples5 : list Q)
    (summ summ5 : Summary) :
  Summary_of samples = Some summ ->
  Summary_of samples5 = Some summ5 ->
  (converged loop_run summ summ5 = true <->
   (100000000 < loop_run)%Z /\ ~ median summ == 0 /\
   median summ < median summ5).
Proof.
  intros Hs Hs5.
  destruct (Summary_of_deviation samples summ Hs) as [Hd Ep].
  destruct (Summary_of_deviation samples5 summ5 Hs5) as [Hd5 _].
  assert (Ha : 100 * median_abs_dev summ == 0) by (rewrite Hd; ring).
  destruct (divide_zero _ (median summ) Ha) as [H1 H2].
  unfold converged. rewrite !andb_true_iff, Z.ltb_lt, Qlt_bool_iff, Ep.
  split.
  - intros [[Hl Hr] Hm]. repeat split; [assumption| |lra].
    intros E. rewrite (H2 E) in Hr. discriminate.
  - intros (Hl & Hm & Hlt). repeat split; [assumption| |lra].
    apply H1, Hm.
Qed.

Lemma converged_on_summaries_witness :
  exists summ summ5,
    Summary_of [7; 7; 7] = Some summ /\
    Summary_of [9; 9; 9] = Some summ5 /\
    converged 200000000 summ summ5 = true.
Proof.
  destruct (Summary_of [7; 7; 7]) as [summ|] eqn:Hs;
    [|vm_compute in Hs; discriminate].
  destruct (Summary_of [9; 9; 9]) as [summ5|] eqn:Hs5;
    [|vm_compute in Hs5; discriminate].
  exists summ, summ5. repeat split.
  apply (proj2 (converged_on_summaries 200000000 [7; 7; 7] [9; 9; 9]
                  summ summ5 Hs Hs5)).
  vm_compute in Hs. injection Hs as <-.
  vm_compute in Hs5. injection Hs5 as <-.
  repeat split. intros H. discriminate H.
Defined.

(** ** The batch size *)

Open Scope Z_scope.

(** X10. The batch size estimated from the first run is between 1 and one
    million; for a first run of 1 ns to 1 ms per call it is the largest
    number of calls that fit in 1 ms. *)
Theorem estimate_range (b : Bencher) :
  1 <= estimate b <= 1000000 /\
  (0 < ns_per_iter b <= 1000000 ->
   estimate b * ns_per_iter b <= 1000000 < (estimate b + 1) * ns_per_iter b).
Proof.
  unfold estimate. split.
  - destruct (ns_per_iter b =? 0); [simpl; lia|].
    set (d := Z.max (u64 (ns_per_iter b)) 1).
    assert (Hd : 1 <= d) by (unfold d; lia).
    assert (H0 : 0 <= 1000000 / d) by (apply Z.div_pos; lia).
    assert (H1 : 1000000 / d <= 1000000)
      by (apply Z.div_le_upper_bound; lia).
    destruct (1000000 / d =? 0) eqn:E; [lia|]. lia.
  - intros [Hp Hq].
    assert (E0 : (ns_per_iter b =? 0) = false) by (apply Z.eqb_neq; lia).
    rewrite E0.
    assert (Eu : u64 (ns_per_iter b) = ns_per_iter b)
      by (unfold u64; apply Z.mod_small; lia).
    rewrite Eu, Z.max_l by lia.
    set (p := ns_per_iter b) in *.
    pose proof (Z.mul_div_le 1000000 p Hp) as H1.
    pose proof (Z.mul_succ_div_gt 1000000 p Hp) as H2.
    assert (H3 : 1 <= 1000000 / p).
    { apply Z.div_le_lower_bound; lia. }
    assert (E : (1000000 / p =? 0) = false) by (apply Z.eqb_neq; lia).
    rewrite E. lia.
Qed.

Lemma estimate_range_witness :
  estimate (mkBencher 1 300 0) * 300 <= 1000000
  < (estimate (mkBencher 1 300 0) + 1) * 300.
Proof.
  assert (H : 0 < ns_per_iter (mkBencher 1 300 0) <= 1000000)
    by (vm_compute; split; [reflexivity|discriminate]).
  exact (proj2 (estimate_range (mkBencher 1 300 0)) H).
Defined.

(** ** Measuring a callable of constant cost *)

Lemma call_loop_busy (k : nat) (cost : Z) (m : Machine) (seen : list Machine) :
  fst (call_loop k (busy cost) m seen)
  = mkMachine (self m)
      (mkWorld (time (world m) + Z.of_nat k * cost) (drift (world m))).
Proof.
  revert m seen. induction k as [|k IH]; intros m seen.
  - destruct m as [b [t d]]. simpl. do 2 f_equal. lia.
  - change (call_loop (S k) (busy cost) m seen)
      with (call_loop k (busy cost) (busy cost m) (seen ++ [m])).
    rewrite IH. unfold busy. simpl self. simpl world. simpl time. simpl drift.
    do 2 f_equal. lia.
Qed.

Lemma bench_n_busy (iterations cost : Z) (m : Machine) :
  ideal m -> 0 <= iterations ->
  bench_n iterations (busy cost) m
  = advanced m iterations cost (iterations * cost).
Proof.
  intros Hm Hi. unfold ideal in Hm. destruct m as [b [t d]].
  simpl in Hm. subst d.
  unfold bench_n, bench_n_trace, advanced, now. simpl drift. simpl time.
  cbv iota. simpl self. simpl world.
  pose proof (call_loop_busy (Z.to_nat iterations) cost
                (mkMachine (mkBencher iterations 0 (bytes_ b)) (mkWorld t []))
                []) as E.
  destruct (call_loop (Z.to_nat iterations) (busy cost) _ []) as [m1 seen].
  simpl in E. subst m1. simpl. rewrite Z2Nat.id by assumption.
  do 2 f_equal. lia.
Qed.

Lemma advanced_ideal (m : Machine) (n cost e : Z) : ideal (advanced m n cost e).
Proof. reflexivity. Qed.

Lemma advanced_twice (m : Machine) (n n' cost e e' : Z) :
  advanced (advanced m n cost e) n' cost e' = advanced m n' cost (e + e').
Proof.
  unfold advanced. simpl. do 2 f_equal. lia.
Qed.

Lemma ns_per_iter_advanced (m : Machine) (n cost e : Z) :
  0 < n -> 0 <= cost -> n * cost < 2 ^ 63 ->
  ns_per_iter (self (advanced m n cost e)) = cost.
Proof.
  intros Hn Hc Hb. rewrite ns_per_iter_exact; simpl.
  - rewrite Z.mul_comm. apply Z.div_mul. lia.
  - exact Hn.
  - split; [nia|exact Hb].
Qed.

(** X11. On a clock that only the callable moves, a batch of [iterations] calls
    of a callable that takes [cost] nanoseconds measures exactly that:
    the duration is [iterations * cost] and [ns_per_iter()] is [cost]. *)
Theorem bench_n_measures_cost (iterations cost : Z) (m : Machine) :
  ideal m -> 0 < iterations -> 0 <= cost -> iterations * cost < 2 ^ 63 ->
  let after := bench_n iterations (busy cost) m in
  iterations_ (self after) = iterations /\
  duration_ (self after) = iterations * cost /\
  ns_per_iter (self after) = cost /\
  time (world after) = time (world m) + iterations * cost.
Proof.
  intros Hm Hi Hc Hb after. subst after.
  rewrite bench_n_busy by (try assumption; lia).
  repeat split. apply ns_per_iter_advanced; assumption.
Qed.

Lemma bench_n_measures_cost_witness :
  ns_per_iter (self (bench_n 5 (busy 20000000)
                       (mkMachine Bencher_new (mkWorld 0 [])))) = 20000000.
Proof.
  assert (Hm : ideal (mkMachine Bencher_new (mkWorld 0 []))) by reflexivity.
  assert (H0 : 0 < 5) by reflexivity.
  assert (H1 : 0 <= 20000000) by discriminate.
  assert (H2 : 5 * 20000000 < 2 ^ 63) by reflexivity.
  exact (proj1 (proj2 (proj2
    (bench_n_measures_cost 5 20000000
       (mkMachine Bencher_new (mkWorld 0 [])) Hm H0 H1 H2)))).
Defined.

Lemma double_of_i64_small (z : Z) :
  Z.abs z < 2 ^ 53 -> double_of_i64 z = inject_Z z.
Proof.
  intros H. unfold double_of_i64. apply Z.ltb_lt in H. rewrite H. reflexivity.
Qed.

Lemma collect_busy (k : nat) (n cost : Z) (m : Machine) :
  ideal m -> 0 < n -> 0 <= cost < 2 ^ 53 -> n * cost < 2 ^ 63 -> (0 < k)%nat ->
  fst (collect k n (busy cost) m) = repeat (inject_Z cost) k /\
  snd (collect k n (busy cost) m) = advanced m n cost (Z.of_nat k * n * cost).
Proof.
  intros Hm Hn Hc Hb Hk. revert m Hm.
  induction k as [|k IH]; intros m Hm; [lia|].
  change (collect (S k) n (busy cost) m)
    with (let m1 := bench_n n (busy cost) m in
          let p := double_of_i64 (ns_per_iter (self m1)) in
          let (ps, m2) := collect k n (busy cost) m1 in (p :: ps, m2)).
  cbv zeta. rewrite bench_n_busy by (try assumption; lia).
  rewrite ns_per_iter_advanced by (try assumption; lia).
  rewrite double_of_i64_small by lia.
  destruct k as [|k].
  - unfold collect. split; [reflexivity|]. cbn [snd].
    unfold advanced. cbn [self world bytes_ time]. do 2 f_equal. lia.
  - destruct (IH ltac:(lia) (advanced m n cost (n * cost))
                (advanced_ideal _ _ _ _)) as [E1 E2].
    destruct (collect (S k) n (busy cost) (advanced m n cost (n * cost)))
      as [ps m2].
    cbn [fst snd] in E1, E2. subst ps m2. split; [reflexivity|].
    cbn [snd]. rewrite advanced_twice. unfold advanced. do 2 f_equal.
    rewrite (Nat2Z.inj_succ (S k)). ring.
Qed.

Lemma winsorize_repeat (v pct : Q) (k : nat) :
  (0 <= pct)%Q -> (pct <= 100)%Q ->
  winsorize (repeat v (S k)) pct = Some (repeat v (S k)).
Proof.
  intros Hp0 Hp1. unfold winsorize.
  rewrite (sort_id _ (repeat_sorted v (S k))).
  destruct (percentile_repeat v pct k Hp0 Hp1) as (lo & Elo & Hlo).
  destruct (percentile_repeat v (100 - pct) k) as (hi & Ehi & Hhi);
    [lra|lra|].
  rewrite Elo, Ehi. f_equal. apply map_id_on.
  apply Forall_forall. intros y Hy. apply repeat_spec in Hy. subst y.
  apply (clamp_inside v v); try assumption; apply Qle_refl.
Qed.

(** One round of 50 samples of a callable of constant cost. *)
Lemma round_busy (n cost : Z) (m : Machine) :
  ideal m -> 0 < n -> 0 <= cost < 2 ^ 53 -> n * cost < 2 ^ 63 ->
  round n (busy cost) m
  = (Summary_of (repeat (inject_Z cost) 50),
     advanced m n cost (50 * n * cost)).
Proof.
  intros Hm Hn Hc Hb. unfold round.
  destruct (collect_busy 50 n cost m Hm Hn Hc Hb) as [E1 E2]; [lia|].
  destruct (collect 50 n (busy cost) m) as [samples m1].
  cbn [fst snd] in E1, E2. subst samples m1.
  rewrite (winsorize_repeat (inject_Z cost) 5 49) by lra.
  reflexivity.
Qed.

(** ** The loop of [auto_bench] on a callable of constant cost *)

Lemma converged_equal_medians (loop_run : Z) (a b : list Q) (s s5 : Summary) :
  Summary_of a = Some s -> Summary_of b = Some s5 ->
  (median s == median s5)%Q ->
  converged loop_run s s5 = false.
Proof.
  intros Hs Hs5 Hm.
  destruct (Summary_of_deviation b s5 Hs5) as [Hd _].
  unfold converged.
  assert (E : Qlt_bool (median s - median s5) (median_abs_dev s5) = false)
    by (apply Qlt_bool_false; lra).
  rewrite E. apply andb_false_r.
Qed.

Lemma Summary_of_repeat (c : Q) (k : nat) :
  exists s,
    Summary_of (repeat c (S k)) = Some s /\
    (median s == c)%Q /\ (median_abs_dev s == 0)%Q.
Proof.
  destruct (Summary_of_members (repeat c (S k)))
    as (s & Es & _ & _ & Em & Ed & _); [discriminate|].
  destruct (calc_median_repeat c k) as (m & Em' & Hm).
  destruct (calc_median_abs_dev_repeat c k) as (d & Ed' & Hd).
  exists s. split; [exact Es|].
  rewrite Em in Em'. apply Some_eq in Em'.
  rewrite Ed in Ed'. apply Some_eq in Ed'.
  rewrite Em', Ed'. split; assumption.
Qed.

Lemma now_ideal (m : Machine) :
  ideal m -> now (world m) = (time (world m), world m).
Proof.
  unfold ideal, now. intros ->. reflexivity.
Qed.

Lemma machine_eta (m : Machine) : mkMachine (self m) (world m) = m.
Proof. destruct m. reflexivity. Qed.

Lemma auto_bench_loop_unfold (fuel : nat) (n total_run : Z) (func : Callable)
    (m : Machine) :
  auto_bench_loop (S fuel) n total_run func m =
    let (loop_start, w) := now (world m) in
    match round n func (mkMachine (self m) w) with
    | (None, _) => Aborted
    | (Some summ, m1) =>
        match round (u64 (n * 5)) func m1 with
        | (None, _) => Aborted
        | (Some summ5, m2) =>
            let (finish, w2) := now (world m2) in
            let m3 := mkMachine (self m2) w2 in
            match loop_exit total_run (finish - loop_start) summ summ5 with
            | Return s => Finished (s, m3)
            | Continue total_run' =>
                auto_bench_loop fuel (u64 (n * 2)) total_run' func m3
            end
        end
    end.
Proof. reflexivity. Qed.

(** One iteration of the loop: 50 batches of [n] calls and 50 of [5n]
    take [300 * n * cost]; the two summaries are the same, the
    convergence test fails, and the budget decides. *)
Lemma loop_step_busy (fuel : nat) (n total_run cost : Z) (m : Machine)
    (s : Summary) :
  ideal m -> 0 < n -> 1 <= cost < 2 ^ 53 -> 5 * n * cost < 2 ^ 63 ->
  Summary_of (repeat (inject_Z cost) 50) = Some s ->
  auto_bench_loop (S fuel) n total_run (busy cost) m =
    if 3000000000 <? total_run + 300 * n * cost
    then Finished (s, advanced m (5 * n) cost (300 * n * cost))
    else auto_bench_loop fuel (2 * n) (total_run + 300 * n * cost)
           (busy cost) (advanced m (5 * n) cost (300 * n * cost)).
Proof.
  intros Hm Hn Hc Hb Hs.
  assert (Hn5 : n * 5 < 2 ^ 63) by nia.
  assert (Eu5 : u64 (n * 5) = 5 * n)
    by (unfold u64; rewrite Z.mod_small; lia).
  assert (Eu2 : u64 (n * 2) = 2 * n)
    by (unfold u64; rewrite Z.mod_small; lia).
  rewrite auto_bench_loop_unfold.
  rewrite (now_ideal m Hm), machine_eta.
  rewrite round_busy by (try assumption; nia).
  rewrite Hs, Eu5.
  rewrite round_busy by (try apply advanced_ideal; nia).
  rewrite Hs, advanced_twice.
  rewrite (now_ideal _ (advanced_ideal _ _ _ _)), machine_eta.
  replace (50 * n * cost + 50 * (5 * n) * cost) with (300 * n * cost) by ring.
  replace (time (world (advanced m (5 * n) cost (300 * n * cost)))
           - time (world m)) with (300 * n * cost)
    by (unfold advanced; simpl; ring).
  unfold loop_exit.
  rewrite (converged_equal_medians _ _ _ s s Hs Hs) by reflexivity.
  rewrite Eu2.
  destruct (3000000000 <? total_run + 300 * n * cost); reflexivity.
Qed.

Lemma loop_busy_returns (cost : Z) (s : Summary) (fuel : nat) :
  1 <= cost < 2 ^ 53 ->
  Summary_of (repeat (inject_Z cost) 50) = Some s ->
  forall (n total_run : Z) (m : Machine),
    ideal m -> 0 < n ->
    5 * n * 2 ^ Z.of_nat fuel * cost < 2 ^ 63 ->
    total_run <= 3000000000 ->
    3000000000 < total_run + 300 * n * cost * (2 ^ Z.of_nat fuel - 1) ->
    exists m', auto_bench_loop fuel n total_run (busy cost) m = Finished (s, m').
Proof.
  intros Hc Hs.
  induction fuel as [|fuel IH]; intros n total_run m Hm Hn Hb Ht Hgo.
  - simpl in Hgo. lia.
  - rewrite Nat2Z.inj_succ, Z.pow_succ_r in Hb, Hgo by lia.
    assert (Hp : 1 <= 2 ^ Z.of_nat fuel) by (apply Z.pow_le_mono_r with (b := 0); lia).
    assert (Hnc : 0 < n * cost) by nia.
    rewrite (loop_step_busy fuel n total_run cost m s); try assumption; [|nia].
    destruct (3000000000 <? total_run + 300 * n * cost) eqn:E.
    + eexists. reflexivity.
    + apply Z.ltb_ge in E. apply IH.
      * apply advanced_ideal.
      * lia.
      * nia.
      * exact E.
      * nia.
Qed.

Lemma estimate_of_cost (b : Bencher) (cost : Z) :
  ns_per_iter b = cost -> 1 <= cost -> cost < 2 ^ 63 ->
  1 <= estimate b /\
  500000 <= estimate b * cost /\
  (estimate b * cost <= 1000000 \/ estimate b = 1).
Proof.
  intros E Hc Hb. unfold estimate. rewrite E.
  assert (E0 : (cost =? 0) = false) by (apply Z.eqb_neq; lia).
  assert (Eu : u64 cost = cost) by (unfold u64; apply Z.mod_small; lia).
  rewrite E0, Eu, Z.max_l by lia.
  assert (Hpos : 0 < cost) by lia.
  pose proof (Z.mul_div_le 1000000 cost Hpos) as H1.
  pose proof (Z.mul_succ_div_gt 1000000 cost Hpos) as H2.
  assert (H0 : 0 <= 1000000 / cost) by (apply Z.div_pos; lia).
  destruct (1000000 / cost =? 0) eqn:Eq.
  - apply Z.eqb_eq in Eq. rewrite Eq in H2. lia.
  - apply Z.eqb_neq in Eq. nia.
Qed.

(** X12. On a clock that only the callable moves, with [total_run] starting
    from a value that is not negative, [auto_bench] on a callable of
    constant cost between 1 ns and 1000 s returns within five iterations
    of its loop, and the summary it returns has the cost as its median
    and 0 as its [median_abs_dev]. *)
Theorem auto_bench_constant_cost (cost garbage : Z) (m : Machine) :
  ideal m -> 1 <= cost -> cost <= 1000000000000 -> 0 <= garbage ->
  exists s m',
    auto_bench 5 garbage (busy cost) m = Finished (s, m') /\
    (median s == inject_Z cost)%Q /\ (median_abs_dev s == 0)%Q.
Proof.
  intros Hm Hc Hmax Hg.
  destruct (Summary_of_repeat (inject_Z cost) 49) as (s & Hs & Hmed & Hdev).
  exists s. unfold auto_bench.
  rewrite bench_n_busy by (try assumption; lia).
  set (m1 := advanced m 1 cost (1 * cost)).
  assert (Hns : ns_per_iter (self m1) = cost)
    by (apply ns_per_iter_advanced; lia).
  destruct (estimate_of_cost (self m1) cost Hns) as (Hn & Hlo & Hhi);
    [lia|lia|].
  set (n := estimate (self m1)) in *.
  assert (Hnc : n * cost <= 1000000000000) by (destruct Hhi; nia).
  assert (Hc53 : 1 <= cost < 2 ^ 53) by lia.
  destruct (Z_le_gt_dec garbage 3000000000) as [Hle|Hgt].
  - destruct (loop_busy_returns cost s 5 Hc53 Hs n garbage m1) as [m' E];
      try assumption.
    + apply advanced_ideal.
    + lia.
    + change (2 ^ Z.of_nat 5) with 32. lia.
    + change (2 ^ Z.of_nat 5) with 32. lia.
    + exists m'. repeat split; assumption.
  - rewrite (loop_step_busy 4 n garbage cost m1 s);
      try assumption; [|apply advanced_ideal|lia|lia].
    assert (E : (3000000000 <? garbage + 300 * n * cost) = true)
      by (apply Z.ltb_lt; nia).
    rewrite E. eexists. repeat split; assumption.
Qed.

Lemma auto_bench_constant_cost_witness :
  exists s m',
    auto_bench 5 0 (busy 20000000) (mkMachine Bencher_new (mkWorld 0 []))
      = Finished (s, m') /\
    (median s == 20000000)%Q.
Proof.
  assert (Hm : ideal (mkMachine Bencher_new (mkWorld 0 []))) by reflexivity.
  assert (H0 : 1 <= 20000000) by discriminate.
  assert (H1 : 20000000 <= 1000000000000) by discriminate.
  assert (H2 : 0 <= 0) by discriminate.
  destruct (auto_bench_constant_cost 20000000 0
              (mkMachine Bencher_new (mkWorld 0 [])) Hm H0 H1 H2)
    as (s & m' & E & Hmed & _).
  exists s, m'. split; assumption.
Defined.

(** ** What [auto_bench] and [benchmark] never do *)

Lemma bench_n_bytes (n : Z) (func : Callable) (m : Machine) :
  keeps_bytes func ->
  bytes_ (self (bench_n n func m)) = bytes_ (self m).
Proof.
  intros Hf. unfold bench_n.
  destruct (bench_n_trace_unfold n func m) as (_ & E & _). rewrite E.
  rewrite call_loop_keeps_bytes by exact Hf. reflexivity.
Qed.

Lemma collect_result (k : nat) (n : Z) (func : Callable) (m : Machine) :
  length (fst (collect k n func m)) = k /\
  (keeps_bytes func ->
   bytes_ (self (snd (collect k n func m))) = bytes_ (self m)).
Proof.
  revert m. induction k as [|k IH]; intros m.
  - split; reflexivity.
  - change (collect (S k) n func m)
      with (let m1 := bench_n n func m in
            let p := double_of_i64 (ns_per_iter (self m1)) in
            let (ps, m2) := collect k n func m1 in (p :: ps, m2)).
    cbv zeta. destruct (IH (bench_n n func m)) as [H1 H2].
    destruct (collect k n func (bench_n n func m)) as [ps m2].
    cbn [fst snd] in *. split.
    + simpl. congruence.
    + intros Hf. rewrite (H2 Hf). apply bench_n_bytes, Hf.
Qed.

Lemma round_result (n : Z) (func : Callable) (m : Machine) :
  exists samples s,
    length samples = 50%nat /\
    Summary_of samples = Some s /\
    fst (round n func m) = Some s /\
    (keeps_bytes func ->
     bytes_ (self (snd (round n func m))) = bytes_ (self m)).
Proof.
  unfold round.
  destruct (collect_result 50 n func m) as [Hlen Hb].
  destruct (collect 50 n func m) as [samples m1]. cbn [fst snd] in *.
  assert (Hne : samples <> []) by (intros ->; discriminate).
  destruct (winsorize_bounds samples 5 Hne) as (lo & hi & Elo & Ehi & _);
    [lra|lra|].
  unfold winsorize. rewrite Elo, Ehi.
  set (w := map (clamp lo hi) (sort samples)).
  assert (Hw : length w = 50%nat)
    by (unfold w; rewrite length_map, sort_length; exact Hlen).
  assert (Hwne : w <> []) by (intros E; rewrite E in Hw; discriminate).
  destruct (Summary_of_members w Hwne) as (s & Es & _).
  exists w, s. rewrite Es. repeat split; assumption.
Qed.

Lemma auto_bench_loop_result (func : Callable) (fuel : nat) :
  forall (n total_run : Z) (m : Machine),
    auto_bench_loop fuel n total_run func m <> Aborted /\
    forall s m',
      auto_bench_loop fuel n total_run func m = Finished (s, m') ->
      (exists samples,
         length samples = 50%nat /\ Summary_of samples = Some s) /\
      (keeps_bytes func -> bytes_ (self m') = bytes_ (self m)).
Proof.
  induction fuel as [|fuel IH]; intros n total_run m.
  - split; [discriminate|]. intros s m' H. discriminate.
  - rewrite auto_bench_loop_unfold.
    destruct (now (world m)) as [loop_start w].
    destruct (round_result n func (mkMachine (self m) w))
      as (samples & summ & _ & _ & E1 & Hb1).
    destruct (round n func (mkMachine (self m) w)) as [o1 m1].
    cbn [fst snd] in E1, Hb1. subst o1.
    destruct (round_result (u64 (n * 5)) func m1)
      as (samples5 & summ5 & Hlen5 & Hs5 & E2 & Hb2).
    destruct (round (u64 (n * 5)) func m1) as [o2 m2].
    cbn [fst snd] in E2, Hb2. subst o2.
    destruct (now (world m2)) as [finish w2]. cbv zeta.
    unfold loop_exit.
    destruct (converged (finish - loop_start) summ summ5).
    + split; [discriminate|]. intros s m' H. injection H as <- <-.
      split; [exists samples5; split; assumption|].
      intros Hf. simpl. rewrite (Hb2 Hf), (Hb1 Hf). reflexivity.
    + destruct (3000000000 <? total_run + (finish - loop_start)).
      * split; [discriminate|]. intros s m' H. injection H as <- <-.
        split; [exists samples5; split; assumption|].
        intros Hf. simpl. rewrite (Hb2 Hf), (Hb1 Hf). reflexivity.
      * destruct (IH (u64 (n * 2)) (total_run + (finish - loop_start))
                    (mkMachine (self m2) w2)) as [Hna Hfin].
        split; [exact Hna|]. intros s m' H.
        destruct (Hfin s m' H) as [Hex Hbytes]. split; [exact Hex|].
        intros Hf. rewrite (Hbytes Hf). simpl.
        rewrite (Hb2 Hf), (Hb1 Hf). reflexivity.
Qed.

(** X13. [auto_bench] never trips an assertion of the statistics helpers,
    whatever the callable and the clock do: every summary is taken over
    50 samples and the percentile asked is 5 or 50.  The summary it
    returns is that of a vector of 50 samples, and its median lies
    between its [min] and its [max]. *)
Theorem auto_bench_never_aborts (fuel : nat) (garbage : Z) (func : Callable)
    (m : Machine) :
  auto_bench fuel garbage func m <> Aborted /\
  forall s m',
    auto_bench fuel garbage func m = Finished (s, m') ->
    (exists samples,
       length samples = 50%nat /\ Summary_of samples = Some s) /\
    (min s <= median s)%Q /\ (median s <= max s)%Q.
Proof.
  unfold auto_bench.
  destruct (auto_bench_loop_result func fuel
              (estimate (self (bench_n 1 func m))) garbage
              (bench_n 1 func m)) as [Hna Hfin].
  split; [exact Hna|]. intros s m' H.
  destruct (Hfin s m' H) as [(samples & Hlen & Hs) _].
  split; [exists samples; split; assumption|].
  pose proof (Summary_of_nonempty samples s Hs) as Hne.
  destruct (Summary_of_members samples Hne) as (s' & Es' & _ & _ & Em & _).
  assert (s' = s) by congruence. subst s'.
  destruct (Summary_of_members samples Hne) as (s2 & Es2 & Emax & Emin & _).
  assert (s2 = s) by congruence. subst s2.
  unfold calc_median, calc_percentile in Em.
  destruct (percentile_bounds (sort samples) 50)
    as (v & first & final & Ev & Hfirst & Hfinal & Hle1 & Hle2);
    [apply sort_nonempty, Hne|apply sort_sorted|lra|lra|].
  rewrite Ev in Em. apply Some_eq in Em. subst v.
  apply nth_error_In in Hfirst, Hfinal.
  apply (Permutation_in _ (Permutation_sym (sort_perm samples))) in Hfirst.
  apply (Permutation_in _ (Permutation_sym (sort_perm samples))) in Hfinal.
  destruct samples as [|x l]; [congruence|].
  unfold calc_max in Emax. unfold calc_min in Emin.
  apply Some_eq in Emax. apply Some_eq in Emin.
  destruct (fold_max_spec l x) as (_ & H2 & H3).
  destruct (fold_min_spec l x) as (_ & H5 & H6).
  cbv zeta in H2, H3, H5, H6. rewrite Emax in H2, H3. rewrite Emin in H5, H6.
  rewrite Forall_forall in H3, H6.
  split.
  - destruct Hfirst as [<-|Hin]; [lra|]. specialize (H6 _ Hin). lra.
  - destruct Hfinal as [<-|Hin]; [lra|]. specialize (H3 _ Hin). lra.
Qed.

Lemma auto_bench_never_aborts_witness :
  exists s m',
    auto_bench 1 0 (busy 20000000) (mkMachine Bencher_new (mkWorld 0 []))
      = Finished (s, m') /\
    (min s <= median s)%Q /\ (median s <= max s)%Q.
Proof.
  destruct (auto_bench 1 0 (busy 20000000)
              (mkMachine Bencher_new (mkWorld 0 []))) as [[s m']| |] eqn:E;
    [|vm_compute in E; discriminate|vm_compute in E; discriminate].
  exists s, m'. split; [reflexivity|].
  exact (proj2 (proj2 (auto_bench_never_aborts 1 0 (busy 20000000)
                         (mkMachine Bencher_new (mkWorld 0 []))) s m' E)).
Defined.

Lemma throughput_no_bytes (summ : Summary) (mb : Z) :
  throughput summ 0 = Some mb -> mb = 0.
Proof.
  unfold throughput. destruct (double_to_u64 (median summ)); [|discriminate].
  intros H. injection H as <-. reflexivity.
Qed.

(** X15. [benchmark] starts from a byte count of 0, and a callable that does
    not write the byte count leaves it at 0 through every batch: the
    throughput of the result is then 0. *)
Theorem benchmark_without_bytes (fuel : nat) (garbage : Z) (f : Callable)
    (w : World) (bs : BenchSamples) :
  keeps_bytes f ->
  benchmark fuel garbage f w = Finished bs ->
  mb_s bs = 0.
Proof.
  intros Hf H. unfold benchmark in H.
  destruct (auto_bench fuel garbage f (mkMachine Bencher_new w))
    as [[summ b1]| |] eqn:E; try discriminate.
  assert (Hb : bytes_ (self b1) = 0).
  { unfold auto_bench in E.
    destruct (auto_bench_loop_result f fuel
                (estimate (self (bench_n 1 f (mkMachine Bencher_new w))))
                garbage (bench_n 1 f (mkMachine Bencher_new w)))
      as [_ Hfin].
    destruct (Hfin summ b1 E) as [_ Hbytes].
    rewrite (Hbytes Hf). rewrite bench_n_bytes by exact Hf. reflexivity. }
  unfold bytes in H. rewrite Hb in H.
  destruct (throughput summ 0) as [mb|] eqn:Et; [|discriminate].
  injection H as <-. simpl. apply (throughput_no_bytes summ mb Et).
Qed.

Lemma benchmark_without_bytes_witness :
  exists bs,
    benchmark 1 0 (busy 20000000) (mkWorld 0 []) = Finished bs /\ mb_s bs = 0.
Proof.
  assert (Hf : keeps_bytes (busy 20000000)) by (intros m; reflexivity).
  destruct (benchmark 1 0 (busy 20000000) (mkWorld 0 [])) as [bs| |] eqn:E;
    [|vm_compute in E; discriminate|vm_compute in E; discriminate].
  exists bs. split; [reflexivity|].
  exact (benchmark_without_bytes 1 0 (busy 20000000) (mkWorld 0 []) bs Hf E).
Defined.

(** ** The example workload *)

Lemma factorial_from_fact (k : nat) :
  factorial_from k = Z.of_nat (fact k) mod 2 ^ 64.
Proof.
  induction k as [|k IH].
  - reflexivity.
  - change (factorial_from (S k))
      with (u64 (factorial_from k * Z.of_nat (S k))).
    rewrite IH. unfold u64. rewrite Z.mul_mod_idemp_l by lia.
    change (fact (S k)) with (S k * fact k)%nat.
    rewrite Nat2Z.inj_mul. f_equal. ring.
Qed.

Lemma factorial_from_zero (k : nat) : (66 <= k)%nat -> factorial_from k = 0.
Proof.
  intros H. induction H as [|k H IH].
  - vm_compute. reflexivity.
  - change (factorial_from (S k))
      with (u64 (factorial_from k * Z.of_nat (S k))).
    rewrite IH. reflexivity.
Qed.

Lemma factorial_from_nonzero (k : nat) : (k < 66)%nat -> factorial_from k <> 0.
Proof.
  intros H.
  assert (Hall : forallb (fun j => negb (factorial_from j =? 0)) (seq 0 66)
                 = true) by (vm_compute; reflexivity).
  rewrite forallb_forall in Hall.
  assert (Hin : In k (seq 0 66)) by (apply in_seq; lia).
  specialize (Hall k Hin). apply negb_true_iff, Z.eqb_neq in Hall. exact Hall.
Qed.

(** X17. [factorial(n)] is [n!] modulo [2^64], and it is 0 exactly from
    [n = 66] on, where [n!] has 64 factors 2: the workload
    [factorial(100)] of [SimpleBench] computes 0. *)
Theorem factorial_wraps (n : Z) :
  0 <= n ->
  factorial n = Z.of_nat (fact (Z.to_nat n)) mod 2 ^ 64 /\
  (factorial n = 0 <-> 66 <= n).
Proof.
  intros Hn. unfold factorial. split; [apply factorial_from_fact|].
  split.
  - intros H. destruct (Z_lt_le_dec n 66) as [Hlt|Hge]; [|exact Hge].
    exfalso. apply (factorial_from_nonzero (Z.to_nat n)); [lia|exact H].
  - intros H. apply factorial_from_zero. lia.
Qed.

Lemma factorial_wraps_witness : factorial 100 = 0.
Proof.
  assert (H : 0 <= 100) by discriminate.
  apply (proj2 (proj2 (factorial_wraps 100 H))). discriminate.
Defined.

(** ** The median and the extreme percentiles *)

Open Scope Q_scope.

Lemma median_floor_odd (s : list Q) (j : nat) :
  length s = (2 * j + 1)%nat ->
  rank (length s) 50 == inject_Z (Z.of_nat j) /\ below (length s) 50 = j.
Proof.
  intros Hj.
  assert (Hr : rank (length s) 50 == inject_Z (Z.of_nat j))
    by (rewrite Hj; apply median_rank_odd).
  split; [exact Hr|].
  unfold below. rewrite (Qfloor_comp _ _ Hr), Qfloor_Z. apply Nat2Z.id.
Qed.

Lemma median_floor_even (s : list Q) (j : nat) :
  length s = (2 * j + 2)%nat ->
  rank (length s) 50 == inject_Z (Z.of_nat j) + (1 # 2) /\
  below (length s) 50 = j.
Proof.
  intros Hj.
  assert (Hr : rank (length s) 50 == inject_Z (Z.of_nat j) + (1 # 2))
    by (rewrite Hj; apply median_rank_even).
  split; [exact Hr|].
  unfold below. rewrite (Qfloor_comp _ _ Hr), floor_half. apply Nat2Z.id.
Qed.

(** X7. [calc_median] returns the middle sample of the sorted vector when the
    number of samples is odd, and the mean of the two middle samples when
    it is even. *)
Theorem calc_median_middle (samples : list Q) (j : nat) :
  (length samples = (2 * j + 1)%nat ->
   exists x,
     nth_error (sort samples) j = Some x /\
     returns (calc_median samples) x) /\
  (length samples = (2 * j + 2)%nat ->
   exists a b,
     nth_error (sort samples) j = Some a /\
     nth_error (sort samples) (j + 1) = Some b /\
     returns (calc_median samples) ((a + b) / 2)).
Proof.
  unfold calc_median, calc_percentile.
  assert (H0 : 0 <= 50) by lra. assert (H1 : 50 < 100) by lra.
  split; intros Hj; rewrite <- (sort_length samples) in Hj.
  - destruct (le_lt_dec 2 (length (sort samples))) as [Hlen|Hlen].
    + destruct (percentile_interp (sort samples) 50 Hlen H0 H1)
        as (lo & hi & Hlo & Hhi & E).
      destruct (median_floor_odd (sort samples) j Hj) as [Hr Hb].
      rewrite Hb in Hlo. exists lo. split; [exact Hlo|].
      rewrite E. unfold returns.
      assert (Hf : Qfloor (rank (length (sort samples)) 50) = Z.of_nat j)
        by (rewrite (Qfloor_comp _ _ Hr); apply Qfloor_Z).
      rewrite Hf, Hr. ring.
    + destruct (sort samples) as [|x [|y t]]; simpl in *; try lia.
      assert (j = 0%nat) by lia. subst j.
      exists x. split; reflexivity.
  - assert (Hlen : (2 <= length (sort samples))%nat) by lia.
    destruct (percentile_interp (sort samples) 50 Hlen H0 H1)
      as (lo & hi & Hlo & Hhi & E).
    destruct (median_floor_even (sort samples) j Hj) as [Hr Hb].
    rewrite Hb in Hlo, Hhi. exists lo, hi.
    split; [exact Hlo|]. split; [exact Hhi|].
    rewrite E. unfold returns.
    assert (Hf : Qfloor (rank (length (sort samples)) 50) = Z.of_nat j)
      by (rewrite (Qfloor_comp _ _ Hr); apply floor_half).
    rewrite Hf, Hr. field.
Qed.

Lemma calc_median_middle_witness :
  returns (calc_median [100; 2; 10; 50; 3; 7]) ((7 + 10) / 2).
Proof.
  destruct (proj2 (calc_median_middle [100; 2; 10; 50; 3; 7] 2) eq_refl)
    as (a & b & Ha & Hb & H).
  vm_compute in Ha. injection Ha as <-.
  vm_compute in Hb. injection Hb as <-.
  exact H.
Defined.

(** X5. At 0 percent [winsorize] only sorts: the bounds are the smallest and
    the largest sample, no sample is changed, and the vector left is the
    ascending rearrangement of the samples. *)
Theorem winsorize_at_zero (samples : list Q) :
  samples <> [] ->
  winsorize samples 0 = Some (sort samples) /\
  StronglySorted Qle (sort samples) /\
  Permutation samples (sort samples).
Proof.
  intros Hne. split; [|split; [apply sort_sorted|apply sort_perm]].
  pose proof (sort_nonempty samples Hne) as Hne'.
  pose proof (sort_sorted samples) as Hs.
  destruct (percentile_bounds (sort samples) 0 Hne' Hs)
    as (lo & first & final & Elo & Hfirst & Hfinal & Hlo1 & _); [lra|lra|].
  destruct (percentile_bounds (sort samples) (100 - 0) Hne' Hs)
    as (hi & first' & final' & Ehi & _ & Hfinal' & _ & Hhi2); [lra|lra|].
  assert (final' = final) by congruence. subst final'.
  assert (Hlo : lo == first).
  { destruct (le_lt_dec 2 (length (sort samples))) as [Hlen|Hlen].
    - destruct (percentile_interp (sort samples) 0 Hlen) as (a & b & Ha & _ & E);
        [lra|lra|].
      assert (Hr : rank (length (sort samples)) 0 == inject_Z 0)
        by (unfold rank, hundred; simpl inject_Z at 2; field).
      assert (Hb : below (length (sort samples)) 0 = 0%nat)
        by (unfold below; rewrite (Qfloor_comp _ _ Hr), Qfloor_Z; reflexivity).
      rewrite Hb in Ha. assert (a = first) by congruence. subst a.
      rewrite E in Elo. apply Some_eq in Elo. subst lo.
      rewrite (Qfloor_comp _ _ Hr), Qfloor_Z, Hr. ring.
    - destruct (sort samples) as [|x [|y t]]; simpl in *; try lia;
        congruence. }
  assert (Hhi : hi == final).
  { destruct (le_lt_dec 2 (length (sort samples))) as [Hlen|Hlen].
    - rewrite (percentile_last (sort samples) (100 - 0) Hlen) in Ehi by lra.
      assert (hi = final) by congruence. subst. reflexivity.
    - destruct (sort samples) as [|x [|y t]]; simpl in *; try lia;
        congruence. }
  unfold winsorize. rewrite Elo, Ehi. f_equal. apply map_id_on.
  apply Forall_forall. intros y Hy.
  apply (clamp_inside first final); try assumption.
  - apply In_nth_error in Hy. destruct Hy as [i Hi].
    apply (sorted_nth (sort samples) 0 i first y Hs); [lia|assumption|assumption].
  - apply In_nth_error in Hy. destruct Hy as [i Hi].
    assert (Hi' : (i < length (sort samples))%nat)
      by (apply nth_error_Some; congruence).
    apply (sorted_nth (sort samples) i (length (sort samples) - 1) y final Hs);
      [lia|assumption|assumption].
Qed.

Lemma winsorize_at_zero_witness : winsorize [3; 1; 2] 0 = Some [1; 2; 3].
Proof.
  assert (Hne : [3; 1; 2] <> []) by discriminate.
  exact (proj1 (winsorize_at_zero [3; 1; 2] Hne)).
Defined.

(** ** The throughput figure *)

Open Scope Z_scope.

(** X16. For a median that converts to [uint64_t] and a byte count whose
    product with [1000000000] fits, the throughput is defined, is at most
    1000 times the byte count, and is 0 as soon as the median is above one
    second: the number of iterations per second is an integer quotient. *)
Theorem throughput_bounds (summ : Summary) (bytes : Z) :
  (0 <= median summ)%Q -> (median summ < inject_Z (2 ^ 64))%Q ->
  0 <= bytes -> bytes * 1000000000 < 2 ^ 64 ->
  exists mb,
    throughput summ bytes = Some mb /\
    0 <= mb <= 1000 * bytes /\
    ((inject_Z 1000000001 <= median summ)%Q -> mb = 0).
Proof.
  intros H0 H1 Hb0 Hb1.
  destruct (double_to_u64_floor (median summ) H0 H1) as [E Hr].
  unfold throughput. rewrite E.
  set (ns_iter := Z.max (Qfloor (median summ)) 1).
  set (iter_s := 1000000000 / ns_iter).
  assert (Hns : 1 <= ns_iter) by (unfold ns_iter; lia).
  assert (Hi0 : 0 <= iter_s) by (apply Z.div_pos; lia).
  assert (Hi1 : iter_s <= 1000000000)
    by (apply Z.div_le_upper_bound; lia).
  assert (Eu : u64 (bytes * iter_s) = bytes * iter_s)
    by (unfold u64; apply Z.mod_small; nia).
  eexists. split; [reflexivity|]. rewrite Eu. split.
  - split; [apply Z.div_pos; nia|].
    apply Z.div_le_upper_bound; nia.
  - intros Hslow.
    assert (Hf : 1000000001 <= Qfloor (median summ)).
    { rewrite <- (Qfloor_Z 1000000001). apply Qfloor_resp_le, Hslow. }
    assert (Ei : iter_s = 0).
    { unfold iter_s. apply Z.div_small. unfold ns_iter. lia. }
    rewrite Ei, Z.mul_0_r. reflexivity.
Qed.

Lemma throughput_bounds_witness :
  throughput (mkSummary 0 0 2000000000 0 (Finite 0)) 4096 = Some 0.
Proof.
  assert (H0 : (0 <= median (mkSummary 0 0 2000000000 0 (Finite 0)))%Q)
    by (unfold Qle; simpl; lia).
  assert (H1 : (median (mkSummary 0 0 2000000000 0 (Finite 0))
                < inject_Z (2 ^ 64))%Q) by reflexivity.
  assert (H2 : 0 <= 4096) by discriminate.
  assert (H3 : 4096 * 1000000000 < 2 ^ 64) by reflexivity.
  destruct (throughput_bounds (mkSummary 0 0 2000000000 0 (Finite 0)) 4096
              H0 H1 H2 H3) as (mb & E & _ & Hz).
  rewrite E. f_equal. apply Hz. unfold Qle. simpl. lia.
Defined.

(** ** A clock that stands still *)

Lemma ns_per_iter_idle (m : Machine) (n e : Z) :
  0 <= n -> ns_per_iter (self (advanced m n 0 e)) = 0.
Proof.
  intros Hn. unfold ns_per_iter, advanced. cbn [self iterations_ duration_].
  destruct (n =? 0); [reflexivity|]. cbn [negb].
  rewrite Z.mul_0_r. reflexivity.
Qed.

Lemma collect_idle (k : nat) (n : Z) (m : Machine) :
  ideal m -> 0 <= n -> (0 < k)%nat ->
  fst (collect k n (busy 0) m) = repeat (inject_Z 0) k /\
  snd (collect k n (busy 0) m) = advanced m n 0 0.
Proof.
  intros Hm Hn Hk. revert m Hm.
  induction k as [|k IH]; intros m Hm; [lia|].
  change (collect (S k) n (busy 0) m)
    with (let m1 := bench_n n (busy 0) m in
          let p := double_of_i64 (ns_per_iter (self m1)) in
          let (ps, m2) := collect k n (busy 0) m1 in (p :: ps, m2)).
  cbv zeta. rewrite bench_n_busy by assumption.
  rewrite ns_per_iter_idle by assumption.
  rewrite double_of_i64_small by reflexivity.
  destruct k as [|k].
  - unfold collect. split; [reflexivity|]. cbn [snd].
    unfold advanced. do 2 f_equal. lia.
  - destruct (IH ltac:(lia) (advanced m n 0 (n * 0))
                (advanced_ideal _ _ _ _)) as [E1 E2].
    destruct (collect (S k) n (busy 0) (advanced m n 0 (n * 0))) as [ps m2].
    cbn [fst snd] in E1, E2. subst ps m2. split; [reflexivity|].
    cbn [snd]. rewrite advanced_twice. unfold advanced. do 2 f_equal. lia.
Qed.

Lemma round_idle (n : Z) (m : Machine) :
  ideal m -> 0 <= n ->
  round n (busy 0) m = (Summary_of (repeat (inject_Z 0) 50), advanced m n 0 0).
Proof.
  intros Hm Hn. unfold round.
  destruct (collect_idle 50 n m Hm Hn) as [E1 E2]; [lia|].
  destruct (collect 50 n (busy 0) m) as [samples m1].
  cbn [fst snd] in E1, E2. subst samples m1.
  rewrite (winsorize_repeat (inject_Z 0) 5 49) by lra.
  reflexivity.
Qed.

Lemma u64_nonneg (z : Z) : 0 <= u64 z.
Proof. unfold u64. apply Z.mod_pos_bound. lia. Qed.

Lemma loop_idle_runs (fuel : nat) :
  forall (n total_run : Z) (m : Machine),
    ideal m -> 0 <= n -> total_run <= 3000000000 ->
    auto_bench_loop fuel n total_run (busy 0) m = Running.
Proof.
  induction fuel as [|fuel IH]; intros n total_run m Hm Hn Ht;
    [reflexivity|].
  destruct (Summary_of_repeat (inject_Z 0) 49) as (s & Hs & _ & _).
  rewrite auto_bench_loop_unfold.
  rewrite (now_ideal m Hm), machine_eta.
  rewrite round_idle by assumption. rewrite Hs.
  rewrite round_idle by (try apply advanced_ideal; apply u64_nonneg).
  rewrite Hs, advanced_twice.
  rewrite (now_ideal _ (advanced_ideal _ _ _ _)), machine_eta.
  replace (time (world (advanced m (u64 (n * 5)) 0 (0 + 0)))
           - time (world m)) with 0
    by (unfold advanced; simpl; ring).
  unfold loop_exit.
  rewrite (converged_equal_medians _ _ _ s s Hs Hs) by reflexivity.
  assert (E : (3000000000 <? total_run + 0) = false)
    by (apply Z.ltb_ge; lia).
  rewrite E. apply IH; [apply advanced_ideal|apply u64_nonneg|lia].
Qed.

(** X14. The loop of [auto_bench] has no bound on its iterations: its only
    exits are the convergence test and the time budget.  When no time
    passes (a callable that takes none, on a clock that only the callable
    moves) and [total_run] does not start above 3 s, it is still running
    after any number of iterations. *)
Theorem auto_bench_needs_time (fuel : nat) (garbage : Z) (m : Machine) :
  ideal m -> garbage <= 3000000000 ->
  auto_bench fuel garbage (busy 0) m = Running.
Proof.
  intros Hm Hg. unfold auto_bench.
  rewrite bench_n_busy by (try assumption; lia).
  apply loop_idle_runs; [apply advanced_ideal| |exact Hg].
  unfold estimate.
  destruct (ns_per_iter (self (advanced m 1 0 (1 * 0))) =? 0); [simpl; lia|].
  set (q := 1000000 / _).
  destruct (q =? 0) eqn:E; [lia|].
  assert (0 <= q) by (apply Z.div_pos; lia). lia.
Qed.

Lemma auto_bench_needs_time_witness :
  auto_bench 7 0 (busy 0) (mkMachine Bencher_new (mkWorld 0 [])) = Running.
Proof.
  assert (Hm : ideal (mkMachine Bencher_new (mkWorld 0 []))) by reflexivity.
  assert (Hg : 0 <= 3000000000) by discriminate.
  exact (auto_bench_needs_time 7 0 (mkMachine Bencher_new (mkWorld 0 []))
           Hm Hg).
Defined.
